(** * PriorityMuxer: a shallow embedding of
      libsrc/hyperion/PriorityMuxer.cpp

    The priority muxer keeps one [InputInfo] record per registered priority in
    a [QMap<int, InputInfo>], ages records out when their deadline has passed
    and publishes the priority that is currently visible.

    Modelling conventions.
    - [int], [int64_t] and [unsigned] values are integers ([Z]).  The only
      narrowing conversions of the source, to [quint8]/[uint8_t], are written
      out with [to_quint8].  Signed overflow of [now + timeout_ms] is undefined
      behaviour in C++ and is not modelled.
    - A [QMap] is an association list kept in ascending key order, because the
      source iterates the map and the order of the emitted signals follows the
      iteration order.
    - Every member function returns the new muxer state together with the list
      of signals it emitted, in emission order.  [activeStateChanged] is
      connected to [prioritiesChanged] by the constructor, so emitting the
      former is followed by the latter.  [signalTimeTrigger] is recorded as an
      event; the slot [timeTrigger] it is connected to only reads and arms
      [QTimer] objects and is outside the model.
    - [QDateTime::currentMSecsSinceEpoch()] is an input: a function receives
      the reading [now] of the clock read it performs.  [setInput] and
      [setInputImage] read the clock twice, once for the deadline and once
      more in the sweep they run, and receive both readings, [now] and
      [now']; nothing is assumed about the two.  [clearAll(false)] hands its
      reading to every [clearInput] it calls. *)

From Stdlib Require Import ZArith List Bool String Lia.
Import ListNotations.
Local Open Scope Z_scope.


(** ** Data model *)

Record ColorRgb := mkColorRgb { red : Z; green : Z; blue : Z }.

Definition BLACK : ColorRgb := mkColorRgb 0 0 0.

(** Modelled from the spec: utils/Image.h is not part of the sources at hand;
    the muxer treats an image as an opaque blob with a size. *)
Record Image := mkImage { width : Z; height : Z; pixels : list ColorRgb }.

(** Modelled from the spec: the image a default-constructed [Image<ColorRgb>]
    holds ([empty_image] of [set_inactive]); utils/Image.h is missing. *)
Definition empty_image : Image := mkImage 0 0 [].

(** Modelled from the spec: utils/Components.h is missing; the members are the
    minimum set the muxer must recognise, [COMP_INVALID] being the value of a
    value-initialised enum. *)
Inductive Components :=
| COMP_INVALID
| COMP_COLOR
| COMP_EFFECT
| COMP_IMAGE
| COMP_GRABBER
| COMP_BOBLIGHTSERVER
| COMP_FLATBUFSERVER
| COMP_PROTOSERVER
| COMP_V4L.

Definition is_color_or_effect (c : Components) : bool :=
  match c with
  | COMP_COLOR | COMP_EFFECT => true
  | _ => false
  end.

(** The struct [PriorityMuxer::InputInfo] (declared in PriorityMuxer.h, fields
    as used by the member functions). *)
Record InputInfo := mkInputInfo {
  priority       : Z;
  timeoutTime_ms : Z;
  ledColors      : list ColorRgb;
  image          : Image;
  componentId    : Components;
  origin         : string;
  smooth_cfg     : Z;
  owner          : string
}.

(** A value-initialised [InputInfo], as [QMap::operator[]] inserts it. *)
Definition default_InputInfo : InputInfo :=
  mkInputInfo 0 0 [] empty_image COMP_INVALID EmptyString 0 EmptyString.

(** Assignments to the fields of a record. *)
Definition set_timeout_ledColors (t : Z) (c : list ColorRgb) (i : InputInfo)
  : InputInfo :=
  mkInputInfo (priority i) t c (image i) (componentId i) (origin i)
              (smooth_cfg i) (owner i).

Definition set_timeout_image (t : Z) (img : Image) (i : InputInfo)
  : InputInfo :=
  mkInputInfo (priority i) t (ledColors i) img (componentId i) (origin i)
              (smooth_cfg i) (owner i).

Definition set_ledColors (c : list ColorRgb) (i : InputInfo) : InputInfo :=
  mkInputInfo (priority i) (timeoutTime_ms i) c (image i) (componentId i)
              (origin i) (smooth_cfg i) (owner i).

(** The signals of the class. *)
Inductive Event :=
| priorityChanged (p : Z) (state : bool)
| activeStateChanged (p : Z) (active : bool)
| visiblePriorityChanged (p : Z)
| autoSelectChanged (enable : bool)
| prioritiesChanged
| signalTimeTrigger.

Definition LOWEST_PRIORITY : Z := 255.

(** Conversion of an [int] to [quint8]/[uint8_t]. *)
Definition to_quint8 (z : Z) : Z := z mod 256.

(** ** QMap<int, InputInfo> as an ascending association list *)

Module QMap.

Definition t := list (Z * InputInfo).

Fixpoint find (k : Z) (m : t) : option InputInfo :=
  match m with
  | [] => None
  | (k', v) :: m' => if k =? k' then Some v else find k m'
  end.

Definition contains (k : Z) (m : t) : bool :=
  match find k m with
  | Some _ => true
  | None => false
  end.

(** [m[k] = v]: replaces the value of [k] or inserts it at its place. *)
Fixpoint insert (k : Z) (v : InputInfo) (m : t) : t :=
  match m with
  | [] => [(k, v)]
  | (k', v') :: m' =>
      if k <? k' then (k, v) :: (k', v') :: m'
      else if k =? k' then (k, v) :: m'
      else (k', v') :: insert k v m'
  end.

Fixpoint remove (k : Z) (m : t) : t :=
  match m with
  | [] => []
  | (k', v) :: m' => if k =? k' then remove k m' else (k', v) :: remove k m'
  end.

Definition keys (m : t) : list Z := map fst m.

End QMap.

(** ** The muxer state: the data members the member functions read and write *)

Record Muxer := mkMuxer {
  _currentPriority         : Z;
  _manualSelectedPriority  : Z;
  _activeInputs            : QMap.t;
  _lowestPriorityInfo      : InputInfo;
  _sourceAutoSelectEnabled : bool
}.

Definition set_currentPriority (p : Z) (s : Muxer) : Muxer :=
  mkMuxer p (_manualSelectedPriority s) (_activeInputs s)
          (_lowestPriorityInfo s) (_sourceAutoSelectEnabled s).

Definition set_manualSelectedPriority (p : Z) (s : Muxer) : Muxer :=
  mkMuxer (_currentPriority s) p (_activeInputs s)
          (_lowestPriorityInfo s) (_sourceAutoSelectEnabled s).

Definition set_activeInputs (m : QMap.t) (s : Muxer) : Muxer :=
  mkMuxer (_currentPriority s) (_manualSelectedPriority s) m
          (_lowestPriorityInfo s) (_sourceAutoSelectEnabled s).

Definition set_sourceAutoSelectEnabled (b : bool) (s : Muxer) : Muxer :=
  mkMuxer (_currentPriority s) (_manualSelectedPriority s) (_activeInputs s)
          (_lowestPriorityInfo s) b.

(** ** Member functions *)

(** The constructor. *)
Definition PriorityMuxer (ledCount : Z) : Muxer :=
  let lowest :=
    mkInputInfo LOWEST_PRIORITY (-1) (repeat BLACK (Z.to_nat ledCount))
                empty_image COMP_COLOR "System" 0 EmptyString in
  mkMuxer LOWEST_PRIORITY 256 (QMap.insert LOWEST_PRIORITY lowest []) lowest
          true.

(** [setSourceAutoSelectEnabled], with the call of [setCurrentTime] it makes
    when [update] is set passed as [sweep]: [setCurrentTime] itself calls this
    function with [update = false]. *)
Definition setSourceAutoSelectEnabled_with
    (sweep : Muxer -> Muxer * list Event) (enable update : bool) (s : Muxer)
  : bool * Muxer * list Event :=
  if negb (Bool.eqb (_sourceAutoSelectEnabled s) enable) then
    if negb enable
       && negb (QMap.contains (_manualSelectedPriority s) (_activeInputs s))
    then (false, s, [])
    else
      let s1 := set_sourceAutoSelectEnabled enable s in
      let '(s2, ev) := if update then sweep s1 else (s1, []) in
      (true, s2, ev ++ [autoSelectChanged enable])
  else (false, s, []).

(** A record whose positive deadline has passed. *)
Definition timed_out (now : Z) (info : InputInfo) : bool :=
  (0 <? timeoutTime_ms info) && (timeoutTime_ms info <=? now).

(** The loop of [setCurrentTime] over the map: the surviving records, the
    value of [newPriority] and the signals emitted. *)
Fixpoint sweep_loop (now : Z) (m : QMap.t) (newPriority : Z)
  : QMap.t * Z * list Event :=
  match m with
  | [] => ([], newPriority, [])
  | (k, info) :: m' =>
      if timed_out now info then
        let tPrio := to_quint8 (priority info) in
        let '(r, np, ev) := sweep_loop now m' newPriority in
        (r, np, priorityChanged tPrio false :: prioritiesChanged :: ev)
      else
        let np1 := if -100 <? timeoutTime_ms info
                   then Z.min newPriority (priority info)
                   else newPriority in
        let trigger :=
          if (priority info <? 254) && (0 <? timeoutTime_ms info)
             && is_color_or_effect (componentId info)
          then [signalTimeTrigger] else [] in
        let '(r, np, ev) := sweep_loop now m' np1 in
        ((k, info) :: r, np, trigger ++ ev)
  end.

Definition setCurrentTime (now : Z) (s : Muxer) : Muxer * list Event :=
  let newPriority0 :=
    if QMap.contains 0 (_activeInputs s) then 0 else LOWEST_PRIORITY in
  let '(m, newPriority1, ev_loop) :=
    sweep_loop now (_activeInputs s) newPriority0 in
  let s1 := set_activeInputs m s in
  let '(s2, newPriority, ev_auto) :=
    if negb (_sourceAutoSelectEnabled s1) then
      if QMap.contains (_manualSelectedPriority s1) (_activeInputs s1)
      then (s1, _manualSelectedPriority s1, [])
      else
        let '(_, s', ev) :=
          setSourceAutoSelectEnabled_with (fun x => (x, [])) true false s1 in
        (s', newPriority1, ev)
    else (s1, newPriority1, []) in
  let changed := negb (_currentPriority s2 =? newPriority) in
  (set_currentPriority newPriority s2,
   ev_loop ++ ev_auto ++
   (if changed then [visiblePriorityChanged newPriority; prioritiesChanged]
    else [])).

Definition setSourceAutoSelectEnabled (now : Z) (enable update : bool)
    (s : Muxer) : bool * Muxer * list Event :=
  setSourceAutoSelectEnabled_with (setCurrentTime now) enable update s.

(** [setPriority(const uint8_t priority)]; the second argument of
    [setSourceAutoSelectEnabled] takes its default, [true]. *)
Definition setPriority (now : Z) (priority : Z) (s : Muxer)
  : bool * Muxer * list Event :=
  if QMap.contains priority (_activeInputs s) then
    let s1 := set_manualSelectedPriority priority s in
    let '(_, s2, ev) := setSourceAutoSelectEnabled now false true s1 in
    (true, s2, ev)
  else (false, s, []).

(** [std::vector::resize(count, value)]; a negative [int] count converts to a
    size beyond [max_size()] and the call throws ([None]). *)
Definition resize (count : Z) (value : ColorRgb) (v : list ColorRgb)
  : option (list ColorRgb) :=
  if count <? 0 then None
  else Some (firstn (Z.to_nat count) v
             ++ repeat value (Z.to_nat count - List.length v)).

Fixpoint updateLedColorsLength_loop (ledCount : Z) (m : QMap.t)
  : option QMap.t :=
  match m with
  | [] => Some []
  | (k, info) :: m' =>
      let info' :=
        match ledColors info with
        | [] => Some info
        | c0 :: _ =>
            match resize ledCount c0 (ledColors info) with
            | Some v => Some (set_ledColors v info)
            | None => None
            end
        end in
      match info' with
      | None => None
      | Some i =>
          match updateLedColorsLength_loop ledCount m' with
          | Some r => Some ((k, i) :: r)
          | None => None
          end
      end
  end.

(** [None] when a [resize] threw. *)
Definition updateLedColorsLength (ledCount : Z) (s : Muxer) : option Muxer :=
  match updateLedColorsLength_loop ledCount (_activeInputs s) with
  | Some m => Some (set_activeInputs m s)
  | None => None
  end.

Definition getPriorities (s : Muxer) : list Z := QMap.keys (_activeInputs s).

Definition hasPriority (priority : Z) (s : Muxer) : bool :=
  if priority =? LOWEST_PRIORITY then true
  else QMap.contains priority (_activeInputs s).

Definition getInputInfo (priority : Z) (s : Muxer) : InputInfo :=
  match QMap.find priority (_activeInputs s) with
  | Some info => info
  | None =>
      match QMap.find LOWEST_PRIORITY (_activeInputs s) with
      | Some info => info
      | None => _lowestPriorityInfo s
      end
  end.

Definition registerInput (priority : Z) (component : Components)
    (origin_ owner_ : string) (smooth_cfg_ : Z) (s : Muxer)
  : Muxer * list Event :=
  let newInput := negb (QMap.contains priority (_activeInputs s)) in
  let input :=
    match QMap.find priority (_activeInputs s) with
    | Some info => info
    | None => default_InputInfo
    end in
  let input' :=
    mkInputInfo priority
                (if newInput then -100 else timeoutTime_ms input)
                (ledColors input) (image input)
                component origin_ smooth_cfg_ owner_ in
  let s' :=
    set_activeInputs (QMap.insert priority input' (_activeInputs s)) s in
  (s', if newInput then [priorityChanged priority true; prioritiesChanged]
       else []).

(** The part [setInput] and [setInputImage] share: the final timeout, the
    detection of an active/inactive change, the update of the record done by
    [store], the signals and the sweep.  [now] is the reading of the clock
    for the deadline, [now'] the reading [setCurrentTime] takes when the
    call runs the sweep. *)
Definition setInput_with (store : InputInfo -> Z -> InputInfo)
    (now now' : Z) (priority : Z) (timeout_ms : Z) (s : Muxer)
  : bool * Muxer * list Event :=
  match QMap.find priority (_activeInputs s) with
  | None => (false, s, [])
  | Some input =>
      let timeout_ms := if 0 <? timeout_ms then now + timeout_ms
                        else timeout_ms in
      let '(activeChange, active) :=
        if (timeoutTime_ms input =? -100) && negb (timeout_ms =? -100)
        then (true, true)
        else if (timeout_ms =? -100) && negb (timeoutTime_ms input =? -100)
        then (true, false)
        else (false, true) in
      let s1 := set_activeInputs
                  (QMap.insert priority (store input timeout_ms)
                               (_activeInputs s)) s in
      if activeChange then
        let '(s2, ev) := setCurrentTime now' s1 in
        (true, s2,
         activeStateChanged priority active :: prioritiesChanged :: ev)
      else (true, s1, [])
  end.

Definition setInput (now now' : Z) (priority : Z)
    (ledColors_ : list ColorRgb) (timeout_ms : Z) (s : Muxer)
  : bool * Muxer * list Event :=
  setInput_with (fun input t => set_timeout_ledColors t ledColors_ input)
                now now' priority timeout_ms s.

Definition setInputImage (now now' : Z) (priority : Z) (image_ : Image)
    (timeout_ms : Z) (s : Muxer) : bool * Muxer * list Event :=
  setInput_with (fun input t => set_timeout_image t image_ input)
                now now' priority timeout_ms s.

(** [setInputInactive(const quint8& priority)]: with the timeout -100
    [setInputImage] computes no deadline, so the only clock read is the one
    of the sweep. *)
Definition setInputInactive (now : Z) (priority : Z) (s : Muxer)
  : bool * Muxer * list Event :=
  setInputImage now now priority empty_image (-100) s.

(** [clearInput(const uint8_t priority)]. *)
Definition clearInput (now : Z) (priority : Z) (s : Muxer)
  : bool * Muxer * list Event :=
  if (priority <? LOWEST_PRIORITY)
     && QMap.contains priority (_activeInputs s)
  then
    let s1 := set_activeInputs (QMap.remove priority (_activeInputs s)) s in
    let '(s2, ev) := setCurrentTime now s1 in
    (true, s2, ev ++ [priorityChanged priority false; prioritiesChanged])
  else (false, s, []).

(** The loop of [clearAll(false)] over the snapshot [_activeInputs.keys()];
    [clearInput] receives the key converted to [uint8_t]. *)
Fixpoint clearAll_loop (now : Z) (keys : list Z) (s : Muxer)
  : Muxer * list Event :=
  match keys with
  | [] => (s, [])
  | key :: keys' =>
      let info := getInputInfo key s in
      let '(s1, ev1) :=
        if is_color_or_effect (componentId info)
           && (key <? LOWEST_PRIORITY - 1)
        then let '(_, s', ev) := clearInput now (to_quint8 key) s in (s', ev)
        else (s, []) in
      let '(s2, ev2) := clearAll_loop now keys' s1 in
      (s2, ev1 ++ ev2)
  end.

Definition clearAll (now : Z) (forceClearAll : bool) (s : Muxer)
  : Muxer * list Event :=
  if forceClearAll then
    let s1 := set_currentPriority LOWEST_PRIORITY (set_activeInputs [] s) in
    (set_activeInputs
       (QMap.insert (_currentPriority s1) (_lowestPriorityInfo s1)
                    (_activeInputs s1)) s1, [])
  else clearAll_loop now (QMap.keys (_activeInputs s)) s.

(** ** Sequences of public calls *)

Inductive Op :=
| OpRegisterInput (priority : Z) (component : Components)
                  (origin_ owner_ : string) (smooth_cfg_ : Z)
| OpSetInput (priority : Z) (ledColors_ : list ColorRgb) (timeout_ms : Z)
             (now' : Z)
| OpSetInputImage (priority : Z) (image_ : Image) (timeout_ms : Z)
                  (now' : Z)
| OpSetInputInactive (priority : Z)
| OpClearInput (priority : Z)
| OpClearAll (forceClearAll : bool)
| OpSetPriority (priority : Z)
| OpSetSourceAutoSelectEnabled (enable update : bool)
| OpUpdateLedColorsLength (ledCount : Z)
| OpSetCurrentTime.

(** One public call at clock reading [now]; the calls of [setInput] and
    [setInputImage] carry their second reading [now'].  Arguments declared
    [uint8_t] or [quint8] are converted at the call.  A call of
    [updateLedColorsLength] that throws is given no successor state of its
    own; [valid_op] keeps such calls out of the runs considered. *)
Definition step (now : Z) (op : Op) (s : Muxer) : Muxer * list Event :=
  match op with
  | OpRegisterInput p c o w g => registerInput p c o w g s
  | OpSetInput p c t now' =>
      let '(_, s', ev) := setInput now now' p c t s in (s', ev)
  | OpSetInputImage p i t now' =>
      let '(_, s', ev) := setInputImage now now' p i t s in (s', ev)
  | OpSetInputInactive p =>
      let '(_, s', ev) := setInputInactive now (to_quint8 p) s in (s', ev)
  | OpClearInput p =>
      let '(_, s', ev) := clearInput now (to_quint8 p) s in (s', ev)
  | OpClearAll f => clearAll now f s
  | OpSetPriority p =>
      let '(_, s', ev) := setPriority now (to_quint8 p) s in (s', ev)
  | OpSetSourceAutoSelectEnabled e u =>
      let '(_, s', ev) := setSourceAutoSelectEnabled now e u s in (s', ev)
  | OpUpdateLedColorsLength n =>
      match updateLedColorsLength n s with
      | Some s' => (s', [])
      | None => (s, [])
      end
  | OpSetCurrentTime => setCurrentTime now s
  end.

(** Calls whose arguments are in range: a registered priority lies in
    [0..255] and a LED count is not negative. *)
Definition valid_op (op : Op) : bool :=
  match op with
  | OpRegisterInput p _ _ _ _ => (0 <=? p) && (p <=? LOWEST_PRIORITY)
  | OpUpdateLedColorsLength n => 0 <=? n
  | _ => true
  end.

(** A run: the calls with the clock reading of each, oldest first. *)
Fixpoint run (calls : list (Z * Op)) (s : Muxer) : Muxer * list Event :=
  match calls with
  | [] => (s, [])
  | (now, op) :: calls' =>
      let '(s1, ev1) := step now op s in
      let '(s2, ev2) := run calls' s1 in
      (s2, ev1 ++ ev2)
  end.

Inductive reachable : Muxer -> Prop :=
| reach_init : forall ledCount, reachable (PriorityMuxer ledCount)
| reach_step : forall s now op,
    reachable s -> valid_op op = true -> reachable (fst (step now op s)).

(** ** The table invariant *)

(** Keys ascend strictly from [lo], lie in the priority range and every record
    carries its key in its [priority] field. *)
Fixpoint wf_from (lo : Z) (m : QMap.t) : bool :=
  match m with
  | [] => true
  | (k, v) :: m' =>
      (lo <=? k) && (k <=? LOWEST_PRIORITY) && (priority v =? k)
      && wf_from (k + 1) m'
  end.

Definition wf (s : Muxer) : bool :=
  wf_from 0 (_activeInputs s)
  && (priority (_lowestPriorityInfo s) =? LOWEST_PRIORITY).

(** The record of [LOWEST_PRIORITY] is in the table and has no deadline, and
    neither has the copy the constructor keeps. *)
Definition lowest_ok (s : Muxer) : Prop :=
  (exists r, QMap.find LOWEST_PRIORITY (_activeInputs s) = Some r
             /\ timeoutTime_ms r <= 0)
  /\ timeoutTime_ms (_lowestPriorityInfo s) <= 0.

(** The calls that give the record of [LOWEST_PRIORITY] a deadline. *)
Definition gives_lowest_deadline (op : Op) : bool :=
  match op with
  | OpSetInput p _ t _ | OpSetInputImage p _ t _ =>
      (p =? LOWEST_PRIORITY) && (0 <? t)
  | _ => false
  end.

(** The table a sweep leaves. *)
Definition sweep_table (now : Z) (m : QMap.t) : QMap.t :=
  filter (fun kv => negb (timed_out now (snd kv))) m.

(** ** The selector *)

Definition is_active (info : InputInfo) : bool := -100 <? timeoutTime_ms info.

(** Priority [p] is present and not inactive. *)
Definition present_active (p : Z) (m : QMap.t) : bool :=
  match QMap.find p m with
  | Some info => is_active info
  | None => false
  end.

Definition active_keys (m : QMap.t) : list Z :=
  map fst (filter (fun kv => is_active (snd kv)) m).

(** The numerically smallest member of a list, if it has one. *)
Fixpoint smallest (l : list Z) : option Z :=
  match l with
  | [] => None
  | x :: l' =>
      Some (match smallest l' with
            | Some y => Z.min x y
            | None => x
            end)
  end.




(** ** Auxiliary definitions and the states the examples use *)




Definition C2_calls : list (Z * Op) :=
  [ (1000, OpSetInput LOWEST_PRIORITY [BLACK; BLACK; BLACK] 1 1000);
    (1250, OpSetCurrentTime) ].

(** The timeout the calls store. *)
Definition final_timeout (now timeout_ms : Z) : Z :=
  if 0 <? timeout_ms then now + timeout_ms else timeout_ms.

(** The call changes the record from inactive to active or back
    ([activeChange]): exactly one of the old and the new timeout is -100. *)
Definition crosses_edge (old new : Z) : bool :=
  negb (Bool.eqb (old =? -100) (new =? -100)).

(** The call erases the record it has just written: it runs the sweep, and
    the deadline computed at the reading [now] has passed at the reading
    [now'] of the sweep. *)
Definition erased_in_call (now now' timeout_ms : Z) (old : Z) : bool :=
  crosses_edge old (final_timeout now timeout_ms)
  && (0 <? final_timeout now timeout_ms)
  && (final_timeout now timeout_ms <=? now').

(** 30 and 60 are registered and active, 60 is pinned. *)
Definition C7_calls : list (Z * Op) :=
  [ (1000, OpRegisterInput 30 COMP_COLOR "ui" EmptyString 0);
    (1000, OpSetInput 30 [BLACK; BLACK; BLACK] (-1) 1000);
    (1000, OpRegisterInput 60 COMP_COLOR "ui" EmptyString 0);
    (1000, OpSetInput 60 [BLACK; BLACK; BLACK] (-1) 1000);
    (1000, OpSetPriority 60) ].

Definition C7_state : Muxer := fst (run C7_calls (PriorityMuxer 3)).

Definition C3_calls : list (Z * Op) :=
  [ (1000, OpRegisterInput 50 COMP_EFFECT "fx" "rainbow" 0);
    (1000, OpSetInput 50 [BLACK; BLACK; BLACK] 0 1000);
    (1250, OpSetCurrentTime) ].

Definition C3_state : Muxer :=
  fst (run [(1000, OpRegisterInput 50 COMP_EFFECT "fx" "rainbow" 0)]
           (PriorityMuxer 3)).

(** What [updateLedColorsLength] does to one record. *)
Definition resized (ledCount : Z) (info : InputInfo) : InputInfo :=
  match ledColors info with
  | [] => info
  | c0 :: _ =>
      set_ledColors
        (firstn (Z.to_nat ledCount) (ledColors info)
         ++ repeat c0 (Z.to_nat ledCount - List.length (ledColors info)))
        info
  end.

Definition C4_state : Muxer :=
  fst (run [(1000, OpRegisterInput 100 COMP_IMAGE "stream" EmptyString 0)]
           (PriorityMuxer 3)).

Definition C10_state : Muxer :=
  fst (run [(1000, OpRegisterInput 20 COMP_COLOR "x" "owner" 7)]
           (PriorityMuxer 3)).

(** 100 is registered and active, hence visible. *)
Definition C9_state : Muxer :=
  fst (run [ (1000, OpRegisterInput 100 COMP_COLOR "ui" EmptyString 0);
             (1000, OpSetInput 100 [BLACK; BLACK; BLACK] (-1) 1000) ]
           (PriorityMuxer 3)).

(** The test [clearAll(false)] applies to a key and its record. *)
Definition soft_cleared (key : Z) (info : InputInfo) : bool :=
  is_color_or_effect (componentId info) && (key <? LOWEST_PRIORITY - 1).

Definition any_soft_cleared (m : QMap.t) : bool :=
  existsb (fun kv => soft_cleared (fst kv) (snd kv)) m.

(** One round of the loop of [clearAll(false)], on the table. *)
Definition clearAll_round (now : Z) (m : QMap.t) (key : Z) : QMap.t :=
  match QMap.find key m with
  | Some info =>
      if soft_cleared key info
      then sweep_table now (QMap.remove key m)
      else m
  | None => m
  end.

Definition hit (m : QMap.t) (key : Z) : bool :=
  match QMap.find key m with
  | Some info => soft_cleared key info
  | None => false
  end.

(** What the rounds over [keys] keep of a table, once a round has cleared a
    record. *)
Definition kept (now : Z) (keys : list Z) (kv : Z * InputInfo) : bool :=
  negb (timed_out now (snd kv))
  && negb (existsb (Z.eqb (fst kv)) keys && soft_cleared (fst kv) (snd kv)).

(** 40 is a grabber whose deadline (1100) has passed at 1200 without a sweep
    in between; 80 is a persistent colour. *)
Definition C8_state : Muxer :=
  fst (run [ (1000, OpRegisterInput 40 COMP_GRABBER "grabber" EmptyString 0);
             (1000, OpSetInputImage 40 (mkImage 1 1 [BLACK]) 100 1000);
             (1000, OpRegisterInput 80 COMP_COLOR "ui" EmptyString 0);
             (1000, OpSetInput 80 [BLACK; BLACK; BLACK] (-1) 1000) ]
           (PriorityMuxer 3)).

(** C8 on the fifth scenario of the specification: 40 is an active grabber,
    80 an active colour; the soft clear removes 80 and keeps 40. *)
Definition C8_scenario : Muxer :=
  fst (run [ (1000, OpRegisterInput 40 COMP_GRABBER "grabber" EmptyString 0);
             (1000, OpSetInputImage 40 (mkImage 1 1 [BLACK]) (-1) 1000);
             (1000, OpRegisterInput 80 COMP_COLOR "ui" EmptyString 0);
             (1000, OpSetInput 80 [BLACK; BLACK; BLACK] (-1) 1000) ]
           (PriorityMuxer 3)).

(** ** The rate-limited trigger: [timeTrigger] and its two timers *)

(** A [QTimer] as the class uses it: the interval it was last started with,
    whether it is single-shot and whether it is running. *)
Record QTimer := mkQTimer {
  interval   : Z;
  singleShot : bool;
  isActive   : bool
}.

(** [QTimer::start(msec)]. *)
Definition start (msec : Z) (t : QTimer) : QTimer :=
  mkQTimer msec (singleShot t) true.

(** [QTimer::stop()]. *)
Definition stop (t : QTimer) : QTimer :=
  mkQTimer (interval t) (singleShot t) false.

(** The timers [timeTrigger] reads and arms. *)
Record Timers := mkTimers {
  _timer      : QTimer;
  _blockTimer : QTimer
}.

(** Both timers as the constructor leaves them: single-shot, not started. *)
Definition PriorityMuxer_timers : Timers :=
  mkTimers (mkQTimer 0 true false) (mkQTimer 0 true false).

(** The signal of [timeTrigger]; the constructor forwards it to
    [prioritiesChanged]. *)
Inductive TimeSignal := timeRunner.

Definition timeTrigger (tm : Timers) : Timers * list TimeSignal :=
  if isActive (_blockTimer tm)
  then (mkTimers (start 500 (_timer tm)) (_blockTimer tm), [])
  else (mkTimers (_timer tm) (start 1000 (_blockTimer tm)), [timeRunner]).

(** What reaches the timers: an emission of [signalTimeTrigger], the timeout
    of [_timer] (connected to [timeTrigger]) and the timeout of
    [_blockTimer] (connected to nothing). *)
Inductive TimerEvent :=
| TriggerRequest
| TimerTimeout
| BlockTimeout.

(** A timer that times out is running; a single-shot timer stops before its
    [timeout] signal is delivered.  A timeout of a timer that is not running
    does not happen and is given no effect. *)
Definition timer_step (e : TimerEvent) (tm : Timers)
  : Timers * list TimeSignal :=
  match e with
  | TriggerRequest => timeTrigger tm
  | TimerTimeout =>
      if isActive (_timer tm)
      then timeTrigger
             (mkTimers (if singleShot (_timer tm) then stop (_timer tm)
                        else _timer tm)
                       (_blockTimer tm))
      else (tm, [])
  | BlockTimeout =>
      if isActive (_blockTimer tm)
      then (mkTimers (_timer tm)
                     (if singleShot (_blockTimer tm)
                      then stop (_blockTimer tm) else _blockTimer tm), [])
      else (tm, [])
  end.

Fixpoint timer_run (evs : list TimerEvent) (tm : Timers)
  : Timers * list TimeSignal :=
  match evs with
  | [] => (tm, [])
  | e :: evs' =>
      let '(tm1, sig1) := timer_step e tm in
      let '(tm2, sig2) := timer_run evs' tm1 in
      (tm2, sig1 ++ sig2)
  end.

(** The timers keep their single-shot setting: nothing but the constructor
    calls [setSingleShot]. *)
Definition single_shot (tm : Timers) : bool :=
  singleShot (_timer tm) && singleShot (_blockTimer tm).

Definition is_BlockTimeout (e : TimerEvent) : bool :=
  match e with
  | BlockTimeout => true
  | _ => false
  end.

(** ** Further auxiliary definitions *)

(** The test of the sweep for emitting [signalTimeTrigger]. *)
Definition triggers (info : InputInfo) : bool :=
  (priority info <? 254) && (0 <? timeoutTime_ms info)
  && is_color_or_effect (componentId info).

(** The signals the loop of [setCurrentTime] emits for one record. *)
Definition loop_signals (now : Z) (kv : Z * InputInfo) : list Event :=
  if timed_out now (snd kv)
  then [priorityChanged (to_quint8 (priority (snd kv))) false;
        prioritiesChanged]
  else if triggers (snd kv) then [signalTimeTrigger] else [].

Definition is_signalTimeTrigger (e : Event) : bool :=
  match e with
  | signalTimeTrigger => true
  | _ => false
  end.

(** 20 is registered and inactive, 40 is a grabber with the deadline 1100,
    80 a persistent colour. *)
Definition example_calls : list (Z * Op) :=
  [ (1000, OpRegisterInput 20 COMP_EFFECT "fx" "rainbow" 0);
    (1000, OpRegisterInput 40 COMP_GRABBER "grabber" EmptyString 0);
    (1000, OpSetInputImage 40 (mkImage 1 1 [BLACK]) 100 1000);
    (1000, OpRegisterInput 80 COMP_COLOR "ui" EmptyString 0);
    (1000, OpSetInput 80 [BLACK; BLACK; BLACK] (-1) 1000) ].

Definition example_state : Muxer :=
  fst (run example_calls (PriorityMuxer 3)).

(** The same, with 80 pinned. *)
Definition example_pinned : Muxer :=
  fst (run (example_calls ++ [(1000, OpSetPriority 80)]) (PriorityMuxer 3)).

(** Only a grabber at 40, with the deadline 1100, beside the background. *)
Definition example_grabber : Muxer :=
  fst (run [ (1000, OpRegisterInput 40 COMP_GRABBER "grabber" EmptyString 0);
             (1000, OpSetInputImage 40 (mkImage 1 1 [BLACK]) 100 1000) ]
           (PriorityMuxer 3)).

(** ** Lemmas on the map *)

Section QMapFacts.

Import QMap.

Lemma find_insert_same k v m : find k (insert k v m) = Some v.
Proof.
  induction m as [|[k' v'] m IH]; simpl.
  - now rewrite Z.eqb_refl.
  - destruct (k <? k') eqn:Hlt; simpl.
    + now rewrite Z.eqb_refl.
    + destruct (k =? k') eqn:He; simpl.
      * now rewrite Z.eqb_refl.
      * now rewrite He.
Qed.

Lemma find_insert_other k k' v m :
  k <> k' -> find k' (insert k v m) = find k' m.
Proof.
  intros Hne. induction m as [|[k0 v0] m IH]; simpl.
  - destruct (k' =? k) eqn:He; [apply Z.eqb_eq in He; congruence | easy].
  - destruct (k <? k0) eqn:Hlt; simpl.
    + destruct (k' =? k) eqn:He; [apply Z.eqb_eq in He; congruence | easy].
    + destruct (k =? k0) eqn:He; simpl.
      * apply Z.eqb_eq in He. subst k0.
        destruct (k' =? k) eqn:He'; [apply Z.eqb_eq in He'; congruence | easy].
      * now rewrite IH.
Qed.

Lemma find_remove_same k m : find k (remove k m) = None.
Proof.
  induction m as [|[k' v'] m IH]; simpl; [easy|].
  destruct (k =? k') eqn:He; simpl; [easy | now rewrite He].
Qed.

Lemma find_remove_other k k' m :
  k <> k' -> find k' (remove k m) = find k' m.
Proof.
  intros Hne. induction m as [|[k0 v0] m IH]; simpl; [easy|].
  destruct (k =? k0) eqn:He; simpl.
  - apply Z.eqb_eq in He. subst k0.
    destruct (k' =? k) eqn:He'; [apply Z.eqb_eq in He'; congruence | easy].
  - now rewrite IH.
Qed.

Lemma remove_filter k m :
  remove k m = filter (fun kv => negb (fst kv =? k)) m.
Proof.
  induction m as [|[k' v'] m IH]; simpl; [easy|].
  rewrite (Z.eqb_sym k' k). destruct (k =? k'); simpl; now rewrite IH.
Qed.

Lemma contains_find k m :
  contains k m = true <-> exists v, find k m = Some v.
Proof.
  unfold contains. destruct (find k m); split; intros H; eauto; try easy.
  now destruct H.
Qed.

Lemma contains_false_find k m : contains k m = false <-> find k m = None.
Proof. unfold contains. destruct (find k m); split; easy. Qed.

Lemma find_In k v m : find k m = Some v -> In (k, v) m.
Proof.
  induction m as [|[k' v'] m IH]; simpl; [easy|].
  destruct (k =? k') eqn:He.
  - apply Z.eqb_eq in He. intros [= ->]. subst. now left.
  - intros H. right. now apply IH.
Qed.

(** A record that the filter keeps is still found. *)
Lemma find_filter_keep (f : Z * InputInfo -> bool) k v m :
  find k m = Some v -> f (k, v) = true -> find k (filter f m) = Some v.
Proof.
  induction m as [|[k' v'] m IH]; simpl; [easy|].
  destruct (k =? k') eqn:He.
  - apply Z.eqb_eq in He. subst k'. intros [= ->] Hf. rewrite Hf. simpl.
    now rewrite Z.eqb_refl.
  - intros Hfind Hf. destruct (f (k', v')); simpl; [rewrite He|]; auto.
Qed.

Lemma wf_from_weaken lo lo' m :
  lo' <= lo -> wf_from lo m = true -> wf_from lo' m = true.
Proof.
  destruct m as [|[k v] m]; simpl; [easy|].
  intros Hle H. rewrite !andb_true_iff in *.
  destruct H as [[[H1 H2] H3] H4]. repeat split; auto.
  apply Z.leb_le in H1. apply Z.leb_le. lia.
Qed.

Lemma wf_from_In lo m k v :
  wf_from lo m = true -> In (k, v) m ->
  lo <= k <= LOWEST_PRIORITY /\ priority v = k /\ find k m = Some v.
Proof.
  revert lo. induction m as [|[k' v'] m IH]; simpl; [easy|].
  intros lo H [Hin|Hin]; rewrite !andb_true_iff in H;
    destruct H as [[[H1 H2] H3] H4];
    apply Z.leb_le in H1; apply Z.leb_le in H2; apply Z.eqb_eq in H3.
  - injection Hin as -> ->. rewrite Z.eqb_refl. auto.
  - destruct (IH _ H4 Hin) as (Hr & Hp & Hf).
    destruct (k =? k') eqn:He; [apply Z.eqb_eq in He; lia|].
    repeat split; auto; lia.
Qed.

Lemma wf_from_find lo m k v :
  wf_from lo m = true -> find k m = Some v ->
  lo <= k <= LOWEST_PRIORITY /\ priority v = k.
Proof.
  intros H Hf. apply find_In in Hf.
  destruct (wf_from_In _ _ _ _ H Hf) as (? & ? & ?). auto.
Qed.

Lemma wf_from_filter (f : Z * InputInfo -> bool) lo m :
  wf_from lo m = true -> wf_from lo (filter f m) = true.
Proof.
  revert lo. induction m as [|[k v] m IH]; simpl; [easy|].
  intros lo H. rewrite !andb_true_iff in H.
  destruct H as [[[H1 H2] H3] H4].
  destruct (f (k, v)); simpl.
  - rewrite H1, H2, H3. simpl. auto.
  - apply IH. apply wf_from_weaken with (lo := k + 1); auto.
    apply Z.leb_le in H1. lia.
Qed.

Lemma wf_from_insert lo m k v :
  lo <= k <= LOWEST_PRIORITY -> priority v = k ->
  wf_from lo m = true -> wf_from lo (insert k v m) = true.
Proof.
  revert lo. induction m as [|[k' v'] m IH]; simpl; intros lo Hr Hp H.
  - rewrite !andb_true_iff. repeat split; try apply Z.leb_le;
      try apply Z.eqb_eq; auto; lia.
  - rewrite !andb_true_iff in H. destruct H as [[[H1 H2] H3] H4].
    destruct (k <? k') eqn:Hlt; simpl.
    + apply Z.ltb_lt in Hlt. rewrite H2, H3, H4.
      rewrite !andb_true_iff. repeat split; try apply Z.leb_le;
        try apply Z.eqb_eq; auto; lia.
    + apply Z.ltb_ge in Hlt. destruct (k =? k') eqn:He; simpl.
      * apply Z.eqb_eq in He. subst k'. rewrite H1, H2, H4.
        rewrite !andb_true_iff. repeat split; auto. now apply Z.eqb_eq.
      * apply Z.eqb_neq in He. rewrite H1, H2, H3. simpl.
        apply IH; auto. lia.
Qed.

(** In a well-formed table the filter decides what is found. *)
Lemma find_filter_wf (f : Z * InputInfo -> bool) lo k m :
  wf_from lo m = true ->
  find k (filter f m)
  = match find k m with
    | Some v => if f (k, v) then Some v else None
    | None => None
    end.
Proof.
  intros H. destruct (find k m) as [v|] eqn:Hf.
  - destruct (f (k, v)) eqn:Hfk; [now apply find_filter_keep|].
    destruct (find k (filter f m)) as [v'|] eqn:Hf'; [|easy].
    apply find_In in Hf'. apply filter_In in Hf'. destruct Hf' as [Hin Hk].
    destruct (wf_from_In _ _ _ _ H Hin) as (_ & _ & Hfind). congruence.
  - destruct (find k (filter f m)) as [v'|] eqn:Hf'; [|easy].
    apply find_In in Hf'. apply filter_In in Hf'. destruct Hf' as [Hin Hk].
    destruct (wf_from_In _ _ _ _ H Hin) as (_ & _ & Hfind). congruence.
Qed.

End QMapFacts.

(** ** The sweep *)

Lemma sweep_loop_table now m np :
  fst (fst (sweep_loop now m np)) = sweep_table now m.
Proof.
  revert np. induction m as [|[k v] m IH]; intros np; simpl; [easy|].
  destruct (timed_out now v); simpl.
  - specialize (IH np). destruct (sweep_loop now m np) as [[r n] e]. easy.
  - match goal with |- context [sweep_loop now m ?x] => specialize (IH x);
      destruct (sweep_loop now m x) as [[r n] e] end.
    simpl in *. now rewrite IH.
Qed.

Lemma smallest_spec l x :
  smallest l = Some x <-> In x l /\ forall y, In y l -> x <= y.
Proof.
  revert x. induction l as [|a l IH]; intros x; simpl.
  - split; [easy | intros [[] _]].
  - destruct (smallest l) as [y|] eqn:Hs.
    + pose proof (proj1 (IH y) eq_refl) as [Hy Hmin]. split.
      * intros [= <-]. split.
        -- destruct (Z.min_spec a y) as [[_ ->]|[_ ->]]; auto.
        -- intros z [<-|Hz]; [|specialize (Hmin _ Hz)]; lia.
      * intros [[<-|Hx] Hle]; f_equal.
        -- specialize (Hle y (or_intror Hy)). lia.
        -- pose proof (Hle a (or_introl eq_refl)).
           pose proof (Hle y (or_intror Hy)). specialize (Hmin _ Hx). lia.
    + destruct l as [|b l]; [|simpl in Hs; discriminate]. split.
      * intros [= <-]. split; [now left|]. intros z [<-|[]]. lia.
      * intros [[<-|[]] _]. easy.
Qed.

(** What the loop computes for [newPriority] on a table whose records carry
    their key. *)
Lemma sweep_loop_newPriority now lo m np :
  wf_from lo m = true ->
  snd (fst (sweep_loop now m np))
  = match smallest (active_keys (sweep_table now m)) with
    | Some x => Z.min np x
    | None => np
    end.
Proof.
  revert lo np. induction m as [|[k v] m IH]; intros lo np H; simpl; [easy|].
  simpl in H. rewrite !andb_true_iff in H. destruct H as [[[H1 H2] H3] H4].
  apply Z.eqb_eq in H3. unfold sweep_table in *. simpl.
  destruct (timed_out now v); simpl.
  - specialize (IH _ np H4). destruct (sweep_loop now m np) as [[r n] e]. easy.
  - unfold active_keys in *. simpl. fold (is_active v).
    destruct (is_active v); simpl.
    + specialize (IH _ (Z.min np (priority v)) H4).
      destruct (sweep_loop now m (Z.min np (priority v))) as [[r n] e].
      simpl in *. rewrite IH, H3.
      destruct (smallest _); [now rewrite Z.min_assoc | easy].
    + specialize (IH _ np H4). destruct (sweep_loop now m np) as [[r n] e].
      easy.
Qed.

Lemma setCurrentTime_activeInputs now s :
  _activeInputs (fst (setCurrentTime now s))
  = sweep_table now (_activeInputs s).
Proof.
  unfold setCurrentTime, setSourceAutoSelectEnabled_with.
  rewrite <- (sweep_loop_table now (_activeInputs s)
                (if QMap.contains 0 (_activeInputs s) then 0
                 else LOWEST_PRIORITY)).
  destruct (sweep_loop now _ _) as [[m np] ev]. simpl.
  destruct (_sourceAutoSelectEnabled s) eqn:Ha; simpl; [easy|].
  destruct (QMap.contains _ m); simpl; easy.
Qed.

Lemma setCurrentTime_lowestPriorityInfo now s :
  _lowestPriorityInfo (fst (setCurrentTime now s)) = _lowestPriorityInfo s.
Proof.
  unfold setCurrentTime, setSourceAutoSelectEnabled_with.
  destruct (sweep_loop now _ _) as [[m np] ev]. simpl.
  destruct (_sourceAutoSelectEnabled s) eqn:Ha; simpl; [easy|].
  destruct (QMap.contains _ m); simpl; easy.
Qed.

Lemma setCurrentTime_manualSelectedPriority now s :
  _manualSelectedPriority (fst (setCurrentTime now s))
  = _manualSelectedPriority s.
Proof.
  unfold setCurrentTime, setSourceAutoSelectEnabled_with.
  destruct (sweep_loop now _ _) as [[m np] ev]. simpl.
  destruct (_sourceAutoSelectEnabled s) eqn:Ha; simpl; [easy|].
  destruct (QMap.contains _ m); simpl; easy.
Qed.

Lemma setCurrentTime_sourceAutoSelectEnabled now s :
  _sourceAutoSelectEnabled (fst (setCurrentTime now s))
  = _sourceAutoSelectEnabled s
    || negb (QMap.contains (_manualSelectedPriority s)
                           (sweep_table now (_activeInputs s))).
Proof.
  unfold setCurrentTime, setSourceAutoSelectEnabled_with.
  rewrite <- (sweep_loop_table now (_activeInputs s)
                (if QMap.contains 0 (_activeInputs s) then 0
                 else LOWEST_PRIORITY)).
  destruct (sweep_loop now _ _) as [[m np] ev]. simpl.
  destruct (_sourceAutoSelectEnabled s) eqn:Ha; simpl; [easy|].
  destruct (QMap.contains _ m); simpl; easy.
Qed.

Lemma setCurrentTime_currentPriority now s :
  _currentPriority (fst (setCurrentTime now s))
  = if negb (_sourceAutoSelectEnabled s)
       && QMap.contains (_manualSelectedPriority s)
                        (sweep_table now (_activeInputs s))
    then _manualSelectedPriority s
    else snd (fst (sweep_loop now (_activeInputs s)
                     (if QMap.contains 0 (_activeInputs s) then 0
                      else LOWEST_PRIORITY))).
Proof.
  unfold setCurrentTime, setSourceAutoSelectEnabled_with.
  rewrite <- (sweep_loop_table now (_activeInputs s)
                (if QMap.contains 0 (_activeInputs s) then 0
                 else LOWEST_PRIORITY)).
  destruct (sweep_loop now _ _) as [[m np] ev]. simpl.
  destruct (_sourceAutoSelectEnabled s) eqn:Ha; simpl; [easy|].
  destruct (QMap.contains _ m); simpl; easy.
Qed.

(** ** The invariant holds in every reachable state *)

Lemma wf_intro s :
  wf_from 0 (_activeInputs s) = true ->
  priority (_lowestPriorityInfo s) = LOWEST_PRIORITY ->
  wf s = true.
Proof.
  intros H1 H2. unfold wf. rewrite H1, H2. now rewrite Z.eqb_refl.
Qed.

Lemma wf_elim s :
  wf s = true ->
  wf_from 0 (_activeInputs s) = true
  /\ priority (_lowestPriorityInfo s) = LOWEST_PRIORITY.
Proof.
  unfold wf. rewrite andb_true_iff, Z.eqb_eq. auto.
Qed.

Lemma wf_setCurrentTime now s :
  wf s = true -> wf (fst (setCurrentTime now s)) = true.
Proof.
  intros H. apply wf_elim in H. destruct H as [H1 H2]. apply wf_intro.
  - rewrite setCurrentTime_activeInputs. now apply wf_from_filter.
  - now rewrite setCurrentTime_lowestPriorityInfo.
Qed.

Lemma wf_registerInput p c o w g s :
  0 <= p <= LOWEST_PRIORITY ->
  wf s = true -> wf (fst (registerInput p c o w g s)) = true.
Proof.
  intros Hp H. apply wf_elim in H. destruct H as [H1 H2].
  apply wf_intro; simpl; auto. apply wf_from_insert; auto.
Qed.

Lemma wf_setInput_with store now now' p t s :
  (forall i x, priority (store i x) = priority i) ->
  wf s = true -> wf (snd (fst (setInput_with store now now' p t s))) = true.
Proof.
  intros Hst H. unfold setInput_with.
  destruct (QMap.find p (_activeInputs s)) as [input|] eqn:Hf; [|easy].
  pose proof (wf_elim _ H) as [H1 H2].
  destruct (wf_from_find _ _ _ _ H1 Hf) as [Hr Hp].
  match goal with |- context [QMap.insert p ?v _] =>
    assert (Hs1 : wf (set_activeInputs
                        (QMap.insert p v (_activeInputs s)) s) = true)
  end.
  { apply wf_intro; simpl; auto. apply wf_from_insert; auto.
    now rewrite Hst. }
  match goal with |- context [if ?c then (true, true) else _] =>
    destruct c end; simpl.
  - match goal with |- context [setCurrentTime now' ?x] =>
      pose proof (wf_setCurrentTime now' x Hs1) as Hw;
      destruct (setCurrentTime now' x) end. easy.
  - match goal with |- context [if ?c then (true, false) else _] =>
      destruct c end; simpl; [|easy].
    match goal with |- context [setCurrentTime now' ?x] =>
      pose proof (wf_setCurrentTime now' x Hs1) as Hw;
      destruct (setCurrentTime now' x) end. easy.
Qed.

Lemma wf_clearInput now p s :
  wf s = true -> wf (snd (fst (clearInput now p s))) = true.
Proof.
  intros H. unfold clearInput.
  destruct ((p <? LOWEST_PRIORITY) && _); [|easy].
  match goal with |- context [setCurrentTime now ?x] =>
    assert (Hw : wf (fst (setCurrentTime now x)) = true);
    [|destruct (setCurrentTime now x); easy] end.
  apply wf_setCurrentTime. apply wf_elim in H. destruct H as [H1 H2].
  apply wf_intro; simpl; auto. rewrite remove_filter.
  now apply wf_from_filter.
Qed.

Lemma wf_clearAll_loop now keys s :
  wf s = true -> wf (fst (clearAll_loop now keys s)) = true.
Proof.
  revert s. induction keys as [|k keys IH]; intros s H; simpl; [easy|].
  destruct (is_color_or_effect _ && _).
  - pose proof (wf_clearInput now (to_quint8 k) s H) as Hw.
    destruct (clearInput now (to_quint8 k) s) as [[b s'] ev]. simpl in Hw.
    specialize (IH _ Hw). destruct (clearAll_loop now keys s'). easy.
  - specialize (IH _ H). destruct (clearAll_loop now keys s). easy.
Qed.

Lemma wf_clearAll now force s :
  wf s = true -> wf (fst (clearAll now force s)) = true.
Proof.
  intros H. destruct force; simpl; [|now apply wf_clearAll_loop].
  apply wf_elim in H. destruct H as [H1 H2]. apply wf_intro; simpl; auto.
  rewrite H2. now rewrite Z.eqb_refl.
Qed.

Lemma wf_setSourceAutoSelectEnabled now e u s :
  wf s = true -> wf (snd (fst (setSourceAutoSelectEnabled now e u s))) = true.
Proof.
  intros H. unfold setSourceAutoSelectEnabled, setSourceAutoSelectEnabled_with.
  destruct (negb (Bool.eqb _ e)); [|easy].
  destruct (negb e && _); [easy|].
  destruct u; [|easy].
  match goal with |- context [setCurrentTime now ?x] =>
    assert (Hw : wf (fst (setCurrentTime now x)) = true);
    [|destruct (setCurrentTime now x); easy] end.
  now apply wf_setCurrentTime.
Qed.

Lemma wf_setPriority now p s :
  wf s = true -> wf (snd (fst (setPriority now p s))) = true.
Proof.
  intros H. unfold setPriority.
  destruct (QMap.contains p (_activeInputs s)); [|easy].
  pose proof (wf_setSourceAutoSelectEnabled now false true
                (set_manualSelectedPriority p s) H) as Hw.
  destruct (setSourceAutoSelectEnabled _ _ _ _) as [[b s'] ev]. easy.
Qed.

Lemma wf_from_updateLedColorsLength_loop n lo m m' :
  updateLedColorsLength_loop n m = Some m' ->
  wf_from lo m = true -> wf_from lo m' = true.
Proof.
  revert lo m'. induction m as [|[k v] m IH]; intros lo m'; simpl.
  - now intros [= <-].
  - intros Hu H. rewrite !andb_true_iff in H. destruct H as [[[H1 H2] H3] H4].
    assert (Hi : forall i,
      match ledColors v with
      | [] => Some v
      | c0 :: _ =>
          match resize n c0 (ledColors v) with
          | Some x => Some (set_ledColors x v)
          | None => None
          end
      end = Some i -> priority i = priority v).
    { intros i. destruct (ledColors v); [now intros [= <-]|].
      destruct (resize n c _); [now intros [= <-] | easy]. }
    destruct (match ledColors v with [] => _ | _ => _ end) as [i|]; [|easy].
    destruct (updateLedColorsLength_loop n m) as [r|]; [|easy].
    injection Hu as <-. simpl. rewrite (Hi i eq_refl), H1, H2, H3. simpl.
    now apply IH.
Qed.

Lemma wf_step now op s :
  valid_op op = true -> wf s = true -> wf (fst (step now op s)) = true.
Proof.
  intros Hv H. destruct op; simpl.
  - simpl in Hv. rewrite andb_true_iff, !Z.leb_le in Hv.
    now apply wf_registerInput.
  - pose proof (wf_setInput_with
      (fun input t => set_timeout_ledColors t ledColors_ input)
      now now' priority0 timeout_ms s (fun _ _ => eq_refl) H) as Hw.
    unfold setInput. destruct (setInput_with _ _ _ _ _ _) as [[b s'] ev].
    easy.
  - pose proof (wf_setInput_with
      (fun input t => set_timeout_image t image_ input)
      now now' priority0 timeout_ms s (fun _ _ => eq_refl) H) as Hw.
    unfold setInputImage.
    destruct (setInput_with _ _ _ _ _ _) as [[b s'] ev]. easy.
  - pose proof (wf_setInput_with
      (fun input t => set_timeout_image t empty_image input)
      now now (to_quint8 priority0) (-100) s (fun _ _ => eq_refl) H) as Hw.
    unfold setInputInactive, setInputImage.
    destruct (setInput_with _ _ _ _ _ _) as [[b s'] ev]. easy.
  - pose proof (wf_clearInput now (to_quint8 priority0) s H) as Hw.
    destruct (clearInput _ _ _) as [[b s'] ev]. easy.
  - now apply wf_clearAll.
  - pose proof (wf_setPriority now (to_quint8 priority0) s H) as Hw.
    destruct (setPriority _ _ _) as [[b s'] ev]. easy.
  - pose proof (wf_setSourceAutoSelectEnabled now enable update s H) as Hw.
    destruct (setSourceAutoSelectEnabled _ _ _ _) as [[b s'] ev]. easy.
  - unfold updateLedColorsLength.
    destruct (updateLedColorsLength_loop ledCount (_activeInputs s)) as [m|]
      eqn:Hu; simpl; [|easy].
    apply wf_elim in H. destruct H as [H1 H2]. apply wf_intro; simpl; auto.
    eapply wf_from_updateLedColorsLength_loop; eauto.
  - now apply wf_setCurrentTime.
Qed.

Lemma reachable_wf s : reachable s -> wf s = true.
Proof.
  induction 1 as [n | s now op _ IH Hv]; [easy | now apply wf_step].
Qed.

Lemma reachable_run calls s :
  reachable s -> forallb (fun c => valid_op (snd c)) calls = true ->
  reachable (fst (run calls s)).
Proof.
  revert s. induction calls as [|[now op] calls IH]; intros s Hr Hv; simpl;
    [easy|].
  simpl in Hv. apply andb_true_iff in Hv. destruct Hv as [Hv1 Hv2].
  pose proof (reach_step s now op Hr Hv1) as Hr1.
  destruct (step now op s) as [s1 ev1]. simpl in Hr1.
  specialize (IH _ Hr1 Hv2). destruct (run calls s1). easy.
Qed.


Lemma present_active_In p m :
  present_active p m = true -> In p (active_keys m).
Proof.
  unfold present_active, active_keys.
  destruct (QMap.find p m) as [v|] eqn:Hf; [|easy]. intros Ha.
  apply in_map_iff. exists (p, v). split; [easy|]. apply filter_In.
  split; [now apply find_In | easy].
Qed.

(** ** C1: the visible priority a sweep publishes *)


Lemma find_filter_none (f : Z * InputInfo -> bool) k m :
  QMap.find k m = None -> QMap.find k (filter f m) = None.
Proof.
  induction m as [|[k' v] m IH]; simpl; [easy|].
  destruct (k =? k') eqn:He; [discriminate|]. intros H.
  destruct (f (k', v)); simpl; [rewrite He|]; auto.
Qed.











(** ** C2: the record of [LOWEST_PRIORITY] *)

(** C2 at the failing input: [setInput(255, colors, 1)] gives the record of
    [LOWEST_PRIORITY] a deadline, and the next sweep erases it as it erases
    any other timed-out record; the table is then empty. *)
Theorem C2_lowest_erased_by_sweep :
  reachable (fst (run C2_calls (PriorityMuxer 3)))
  /\ QMap.contains LOWEST_PRIORITY
       (_activeInputs (fst (run C2_calls (PriorityMuxer 3)))) = false
  /\ snd (run C2_calls (PriorityMuxer 3))
     = [priorityChanged LOWEST_PRIORITY false; prioritiesChanged].
Proof.
  split; [|now vm_compute].
  apply reachable_run; [apply reach_init | reflexivity].
Qed.

(** Every other call keeps the record: it is in the table, without a
    deadline, after any call that does not hand it a positive timeout. *)
Lemma sweep_table_keeps now m p r :
  QMap.find p m = Some r -> timeoutTime_ms r <= 0 ->
  QMap.find p (sweep_table now m) = Some r.
Proof.
  intros Hf Ht. apply find_filter_keep; [easy|]. simpl. unfold timed_out.
  destruct (0 <? timeoutTime_ms r) eqn:H; [apply Z.ltb_lt in H; lia | easy].
Qed.

Lemma lowest_ok_setCurrentTime now s :
  lowest_ok s -> lowest_ok (fst (setCurrentTime now s)).
Proof.
  intros [(r & Hf & Ht) Hl]. split.
  - exists r. rewrite setCurrentTime_activeInputs.
    split; [now apply sweep_table_keeps | easy].
  - now rewrite setCurrentTime_lowestPriorityInfo.
Qed.

Lemma lowest_ok_setInput_with store now now' p t s :
  (forall i x, timeoutTime_ms (store i x) = x) ->
  (p =? LOWEST_PRIORITY) && (0 <? t) = false ->
  lowest_ok s -> lowest_ok (snd (fst (setInput_with store now now' p t s))).
Proof.
  intros Hst Hg Hok. unfold setInput_with.
  destruct (QMap.find p (_activeInputs s)) as [input|] eqn:Hf; [|easy].
  match goal with |- context [QMap.insert p ?v _] =>
    assert (Hs1 : lowest_ok (set_activeInputs
                               (QMap.insert p v (_activeInputs s)) s))
  end.
  { destruct Hok as [(r & Hr & Ht) Hl]. split; [|easy]. simpl.
    destruct (p =? LOWEST_PRIORITY) eqn:He.
    - apply Z.eqb_eq in He. subst p. eexists.
      rewrite find_insert_same. split; [reflexivity|]. rewrite Hst.
      simpl in Hg. rewrite Hg. apply Z.ltb_ge in Hg. lia.
    - exists r. rewrite find_insert_other; [easy|].
      apply Z.eqb_neq in He. congruence. }
  match goal with |- context [if ?c then (true, true) else _] =>
    destruct c end; simpl.
  - match goal with |- context [setCurrentTime now' ?x] =>
      pose proof (lowest_ok_setCurrentTime now' x Hs1) as Hw;
      destruct (setCurrentTime now' x) end. easy.
  - match goal with |- context [if ?c then (true, false) else _] =>
      destruct c end; simpl; [|easy].
    match goal with |- context [setCurrentTime now' ?x] =>
      pose proof (lowest_ok_setCurrentTime now' x Hs1) as Hw;
      destruct (setCurrentTime now' x) end. easy.
Qed.

Lemma lowest_ok_clearInput now p s :
  lowest_ok s -> lowest_ok (snd (fst (clearInput now p s))).
Proof.
  intros Hok. unfold clearInput.
  destruct (p <? LOWEST_PRIORITY) eqn:Hlt; simpl; [|easy].
  destruct (QMap.contains p (_activeInputs s)); [|easy].
  match goal with |- context [setCurrentTime now ?x] =>
    assert (Hw : lowest_ok (fst (setCurrentTime now x)));
    [|destruct (setCurrentTime now x); easy] end.
  apply lowest_ok_setCurrentTime. destruct Hok as [(r & Hr & Ht) Hl].
  split; [|easy]. exists r. simpl. rewrite find_remove_other; [easy|].
  apply Z.ltb_lt in Hlt. lia.
Qed.

Lemma lowest_ok_clearAll_loop now keys : forall s,
  lowest_ok s -> lowest_ok (fst (clearAll_loop now keys s)).
Proof.
  induction keys as [|k keys IH]; intros s H; simpl; [easy|].
  destruct (is_color_or_effect _ && _).
  - pose proof (lowest_ok_clearInput now (to_quint8 k) s H) as Hw.
    destruct (clearInput now (to_quint8 k) s) as [[b s'] ev]. simpl in Hw.
    specialize (IH _ Hw). destruct (clearAll_loop now keys s'). easy.
  - specialize (IH _ H). destruct (clearAll_loop now keys s). easy.
Qed.

Lemma updateLedColorsLength_loop_timeout n m m' p r :
  updateLedColorsLength_loop n m = Some m' ->
  QMap.find p m = Some r ->
  exists r', QMap.find p m' = Some r'
             /\ timeoutTime_ms r' = timeoutTime_ms r.
Proof.
  revert m'. induction m as [|[k v] m IH]; intros m'; simpl; [easy|].
  intros Hu Hf.
  assert (Hi : forall i,
    match ledColors v with
    | [] => Some v
    | c0 :: _ =>
        match resize n c0 (ledColors v) with
        | Some x => Some (set_ledColors x v)
        | None => None
        end
    end = Some i -> timeoutTime_ms i = timeoutTime_ms v).
  { intros i. destruct (ledColors v); [now intros [= <-]|].
    destruct (resize n c _); [now intros [= <-] | easy]. }
  destruct (match ledColors v with [] => _ | _ => _ end) as [i|]; [|easy].
  destruct (updateLedColorsLength_loop n m) as [x|]; [|easy].
  injection Hu as <-. simpl. destruct (p =? k).
  - injection Hf as <-. exists i. split; [easy | now apply Hi].
  - now apply IH.
Qed.

Lemma lowest_ok_step now op s :
  gives_lowest_deadline op = false ->
  lowest_ok s -> lowest_ok (fst (step now op s)).
Proof.
  intros Hg Hok. destruct op; simpl; simpl in Hg.
  - destruct Hok as [(r & Hr & Ht) Hl]. split; [|easy]. simpl.
    unfold QMap.contains.
    match goal with |- context [QMap.insert ?p _ _] =>
      destruct (p =? LOWEST_PRIORITY) eqn:He end.
    + apply Z.eqb_eq in He. subst. rewrite Hr. simpl. eexists.
      rewrite find_insert_same. split; [reflexivity | easy].
    + exists r. rewrite find_insert_other; [easy|].
      apply Z.eqb_neq in He. congruence.
  - match goal with |- context [setInput now ?n ?p ?c ?t s] =>
      pose proof (lowest_ok_setInput_with
        (fun input x => set_timeout_ledColors x c input)
        now n p t s (fun _ _ => eq_refl) Hg Hok) as Hw;
      fold (setInput now n p c t s) in Hw;
      destruct (setInput now n p c t s) as [[b s'] ev] end. easy.
  - match goal with |- context [setInputImage now ?n ?p ?c ?t s] =>
      pose proof (lowest_ok_setInput_with
        (fun input x => set_timeout_image x c input)
        now n p t s (fun _ _ => eq_refl) Hg Hok) as Hw;
      fold (setInputImage now n p c t s) in Hw;
      destruct (setInputImage now n p c t s) as [[b s'] ev] end. easy.
  - match goal with |- context [setInputInactive now ?p s] =>
      pose proof (lowest_ok_setInput_with
        (fun input x => set_timeout_image x empty_image input)
        now now p (-100) s (fun _ _ => eq_refl) (andb_false_r _) Hok) as Hw;
      fold (setInputImage now now p empty_image (-100) s) in Hw;
      fold (setInputInactive now p s) in Hw;
      destruct (setInputInactive now p s) as [[b s'] ev] end. easy.
  - match goal with |- context [clearInput now ?p s] =>
      pose proof (lowest_ok_clearInput now p s Hok) as Hw;
      destruct (clearInput now p s) as [[b s'] ev] end. easy.
  - unfold clearAll.
    match goal with |- context [if ?f then _ else _] => destruct f end;
      [|now apply lowest_ok_clearAll_loop].
    destruct Hok as [_ Hl]. split; [|easy]. simpl.
    exists (_lowestPriorityInfo s). auto.
  - unfold setPriority.
    destruct (QMap.contains _ (_activeInputs s)); [|easy].
    unfold setSourceAutoSelectEnabled, setSourceAutoSelectEnabled_with.
    simpl. destruct (negb (Bool.eqb _ false)); [|easy].
    destruct (negb (QMap.contains _ _)); [easy|].
    match goal with |- context [setCurrentTime now ?x] =>
      assert (Hw : lowest_ok (fst (setCurrentTime now x)))
        by (now apply lowest_ok_setCurrentTime);
      destruct (setCurrentTime now x) end. easy.
  - unfold setSourceAutoSelectEnabled, setSourceAutoSelectEnabled_with.
    destruct (negb (Bool.eqb _ _)); [|easy].
    destruct (negb _ && _); [easy|].
    match goal with |- context [if ?u then _ else _] => destruct u end;
      [|easy].
    match goal with |- context [setCurrentTime now ?x] =>
      assert (Hw : lowest_ok (fst (setCurrentTime now x)))
        by (now apply lowest_ok_setCurrentTime);
      destruct (setCurrentTime now x) end. easy.
  - unfold updateLedColorsLength.
    destruct (updateLedColorsLength_loop _ (_activeInputs s)) as [m|] eqn:Hu;
      simpl; [|easy].
    destruct Hok as [(r & Hr & Ht) Hl]. split; [|easy]. simpl.
    destruct (updateLedColorsLength_loop_timeout _ _ _ _ _ Hu Hr)
      as (r' & Hr' & Ht').
    exists r'. split; [easy | lia].
  - now apply lowest_ok_setCurrentTime.
Qed.

Lemma lowest_ok_run calls : forall s,
  forallb (fun c => negb (gives_lowest_deadline (snd c))) calls = true ->
  lowest_ok s -> lowest_ok (fst (run calls s)).
Proof.
  induction calls as [|[now op] calls IH]; intros s Hg Hok; simpl; [easy|].
  simpl in Hg. apply andb_true_iff in Hg. destruct Hg as [Hg1 Hg2].
  apply negb_true_iff in Hg1.
  pose proof (lowest_ok_step now op s Hg1 Hok) as H1.
  destruct (step now op s) as [s1 ev1]. simpl in H1.
  specialize (IH _ Hg2 H1). destruct (run calls s1). easy.
Qed.

Lemma lowest_ok_PriorityMuxer ledCount : lowest_ok (PriorityMuxer ledCount).
Proof.
  split; simpl; [|lia]. eexists. split; [reflexivity|]. simpl. lia.
Qed.

(** ** The record a [setInput]/[setInputImage] call leaves *)

Lemma sweep_table_find lo now m p :
  wf_from lo m = true ->
  QMap.find p (sweep_table now m)
  = match QMap.find p m with
    | Some r => if timed_out now r then None else Some r
    | None => None
    end.
Proof.
  intros H. unfold sweep_table. rewrite (find_filter_wf _ lo p m H).
  destruct (QMap.find p m) as [r|]; [|easy]. simpl.
  now destruct (timed_out now r).
Qed.

(** [setInput_with] on a registered priority, in closed form. *)
Lemma setInput_with_eq store now now' p t s input :
  QMap.find p (_activeInputs s) = Some input ->
  setInput_with store now now' p t s
  = if crosses_edge (timeoutTime_ms input) (final_timeout now t)
    then (true,
          fst (setCurrentTime now'
                 (set_activeInputs
                    (QMap.insert p (store input (final_timeout now t))
                                 (_activeInputs s)) s)),
          activeStateChanged p (timeoutTime_ms input =? -100)
          :: prioritiesChanged
          :: snd (setCurrentTime now'
                    (set_activeInputs
                       (QMap.insert p (store input (final_timeout now t))
                                    (_activeInputs s)) s)))
    else (true,
          set_activeInputs
            (QMap.insert p (store input (final_timeout now t))
                         (_activeInputs s)) s,
          []).
Proof.
  intros Hf. unfold setInput_with, crosses_edge. rewrite Hf.
  fold (final_timeout now t).
  destruct (timeoutTime_ms input =? -100), (final_timeout now t =? -100);
    simpl; try reflexivity; now destruct (setCurrentTime now' _).
Qed.

Lemma setInput_with_find store now now' p t s input :
  (forall i x, timeoutTime_ms (store i x) = x) ->
  QMap.find p (_activeInputs s) = Some input ->
  erased_in_call now now' t (timeoutTime_ms input) = false ->
  fst (fst (setInput_with store now now' p t s)) = true
  /\ QMap.find p
       (_activeInputs (snd (fst (setInput_with store now now' p t s))))
     = Some (store input (final_timeout now t)).
Proof.
  intros Hst Hf He. rewrite (setInput_with_eq store now now' p t s input Hf).
  unfold erased_in_call in He.
  destruct (crosses_edge _ _); simpl;
    [|split; [reflexivity | apply find_insert_same]].
  split; [reflexivity|]. rewrite setCurrentTime_activeInputs. simpl.
  apply find_filter_keep; [apply find_insert_same|]. simpl.
  unfold timed_out. rewrite Hst. simpl in He. now rewrite He.
Qed.

Lemma setInput_with_erased store now now' p t s input :
  (forall i x, timeoutTime_ms (store i x) = x) ->
  (forall i x, priority (store i x) = priority i) ->
  wf s = true ->
  QMap.find p (_activeInputs s) = Some input ->
  erased_in_call now now' t (timeoutTime_ms input) = true ->
  fst (fst (setInput_with store now now' p t s)) = true
  /\ QMap.find p
       (_activeInputs (snd (fst (setInput_with store now now' p t s))))
     = None.
Proof.
  intros Hst Hpr Hwf Hf He.
  rewrite (setInput_with_eq store now now' p t s input Hf).
  unfold erased_in_call in He. rewrite !andb_true_iff in He.
  destruct He as [[He1 He2] He3]. rewrite He1. simpl.
  split; [reflexivity|]. rewrite setCurrentTime_activeInputs. simpl.
  apply wf_elim in Hwf. destruct Hwf as [Hwf _].
  destruct (wf_from_find _ _ _ _ Hwf Hf) as [Hrange Hprio].
  rewrite (sweep_table_find 0 now' _ p), find_insert_same.
  - unfold timed_out. rewrite Hst, He2, He3. reflexivity.
  - apply wf_from_insert; auto. now rewrite Hpr.
Qed.

(** A timeout that is not positive, or a deadline the sweep's reading has
    not reached, keeps the record in the call. *)
Lemma erased_in_call_false now now' t old :
  (0 < t -> now' < now + t) -> erased_in_call now now' t old = false.
Proof.
  intros H. unfold erased_in_call, final_timeout.
  destruct (0 <? t) eqn:Ht.
  - apply Z.ltb_lt in Ht. specialize (H Ht).
    destruct (now + t <=? now') eqn:Hle; [apply Z.leb_le in Hle; lia|].
    now rewrite !andb_false_r.
  - rewrite Ht. now rewrite andb_false_r.
Qed.

(** ** C5: calls on an unregistered priority *)

(** C5: for a priority that is not in the table, [setInput] and
    [setInputImage] return false, leave the muxer state as it is and emit no
    signal. *)
Theorem C5_unregistered_priority s now now' p colors img t :
  QMap.contains p (_activeInputs s) = false ->
  setInput now now' p colors t s = (false, s, [])
  /\ setInputImage now now' p img t s = (false, s, []).
Proof.
  intros H. apply contains_false_find in H.
  unfold setInput, setInputImage, setInput_with. now rewrite H.
Qed.

Lemma C5_unregistered_priority_witness :
  QMap.contains 100 (_activeInputs (PriorityMuxer 3)) = false
  /\ setInput 1000 1001 100 [BLACK] (-1) (PriorityMuxer 3)
     = (false, PriorityMuxer 3, [])
  /\ setInputImage 1000 1001 100 empty_image (-1) (PriorityMuxer 3)
     = (false, PriorityMuxer 3, []).
Proof.
  split; [reflexivity|].
  apply (C5_unregistered_priority (PriorityMuxer 3) 1000 1001 100 [BLACK]
           empty_image (-1)).
  reflexivity.
Defined.

(** ** C6: registration *)

(** C6: [registerInput] on an absent priority inserts a record with
    [timeoutTime_ms = -100] and emits [priorityChanged(p, true)] then
    [prioritiesChanged]; on a present priority it overwrites [componentId],
    [origin], [owner] and [smooth_cfg], keeps [timeoutTime_ms] (and both
    payloads) and emits nothing.  In both cases no other record and no other
    data member changes. *)
Theorem C6_registerInput s p c o w g :
  let s' := fst (registerInput p c o w g s) in
  let ev := snd (registerInput p c o w g s) in
  (QMap.contains p (_activeInputs s) = false ->
     QMap.find p (_activeInputs s')
     = Some (mkInputInfo p (-100) [] empty_image c o g w)
     /\ ev = [priorityChanged p true; prioritiesChanged])
  /\ (forall r, QMap.find p (_activeInputs s) = Some r ->
        QMap.find p (_activeInputs s')
        = Some (mkInputInfo p (timeoutTime_ms r) (ledColors r) (image r)
                            c o g w)
        /\ ev = [])
  /\ (forall q, q <> p ->
        QMap.find q (_activeInputs s') = QMap.find q (_activeInputs s))
  /\ _currentPriority s' = _currentPriority s
  /\ _manualSelectedPriority s' = _manualSelectedPriority s
  /\ _sourceAutoSelectEnabled s' = _sourceAutoSelectEnabled s.
Proof.
  unfold registerInput. simpl. split; [|split; [|split]].
  - intros H. rewrite H. simpl. rewrite find_insert_same.
    apply contains_false_find in H. now rewrite H.
  - intros r H. unfold QMap.contains. rewrite H. simpl.
    now rewrite find_insert_same.
  - intros q Hq. apply find_insert_other. congruence.
  - easy.
Qed.

Lemma C6_registerInput_witness :
  QMap.contains 100 (_activeInputs (PriorityMuxer 3)) = false
  /\ QMap.find 100
       (_activeInputs
          (fst (registerInput 100 COMP_COLOR "ui" EmptyString 0
                  (PriorityMuxer 3))))
     = Some (mkInputInfo 100 (-100) [] empty_image COMP_COLOR "ui" 0
               EmptyString)
  /\ snd (registerInput 100 COMP_COLOR "ui" EmptyString 0 (PriorityMuxer 3))
     = [priorityChanged 100 true; prioritiesChanged]
  /\ QMap.find 255
       (_activeInputs
          (fst (registerInput 255 COMP_GRABBER "grabber" EmptyString 1
                  (PriorityMuxer 3))))
     = Some (mkInputInfo 255 (-1) [BLACK; BLACK; BLACK] empty_image
               COMP_GRABBER "grabber" 1 EmptyString)
  /\ snd (registerInput 255 COMP_GRABBER "grabber" EmptyString 1
            (PriorityMuxer 3))
     = [].
Proof.
  split; [reflexivity|].
  pose proof (proj1 (C6_registerInput (PriorityMuxer 3) 100 COMP_COLOR "ui"
                       EmptyString 0) eq_refl) as [H1 H2].
  pose proof (proj1 (proj2 (C6_registerInput (PriorityMuxer 3) 255
                              COMP_GRABBER "grabber" EmptyString 1)) _ eq_refl)
    as [H3 H4].
  repeat split; assumption.
Defined.

(** ** C7: the manual pin *)

(** C7 at the failing input: with auto-select already disabled (60 pinned),
    [setPriority(30)] returns true and stores the new pin, but
    [setSourceAutoSelectEnabled(false)] finds the mode unchanged and returns
    without the sweep: [_currentPriority] is still 60 when the call returns,
    and no signal is emitted. *)
Theorem C7_setPriority_in_manual_mode :
  reachable C7_state
  /\ _sourceAutoSelectEnabled C7_state = false
  /\ _currentPriority C7_state = 60
  /\ QMap.contains 30 (_activeInputs C7_state) = true
  /\ fst (fst (setPriority 1100 30 C7_state)) = true
  /\ _manualSelectedPriority (snd (fst (setPriority 1100 30 C7_state))) = 30
  /\ _currentPriority (snd (fst (setPriority 1100 30 C7_state))) = 60
  /\ snd (setPriority 1100 30 C7_state) = [].
Proof.
  split; [|now vm_compute].
  apply reachable_run; [apply reach_init | reflexivity].
Qed.

(** The two cases in which [setPriority] does what it is meant to do: an
    absent priority is refused, and from auto-select mode a present priority
    that has not timed out is pinned, visible at once. *)
Lemma setPriority_absent now p s :
  QMap.contains p (_activeInputs s) = false ->
  setPriority now p s = (false, s, []).
Proof. intros H. unfold setPriority. now rewrite H. Qed.

Lemma setPriority_from_auto_select now p s r :
  _sourceAutoSelectEnabled s = true ->
  QMap.find p (_activeInputs s) = Some r -> timed_out now r = false ->
  fst (fst (setPriority now p s)) = true
  /\ _manualSelectedPriority (snd (fst (setPriority now p s))) = p
  /\ _sourceAutoSelectEnabled (snd (fst (setPriority now p s))) = false
  /\ _currentPriority (snd (fst (setPriority now p s))) = p.
Proof.
  intros Ha Hf Hto. unfold setPriority, QMap.contains. rewrite Hf.
  unfold setSourceAutoSelectEnabled, setSourceAutoSelectEnabled_with.
  simpl. rewrite Ha. unfold QMap.contains. rewrite Hf. simpl.
  set (s1 := set_sourceAutoSelectEnabled false
               (set_manualSelectedPriority p s)).
  assert (Hk : QMap.contains p (sweep_table now (_activeInputs s)) = true).
  { apply contains_find. exists r. apply find_filter_keep; [easy|].
    simpl. now rewrite Hto. }
  pose proof (setCurrentTime_manualSelectedPriority now s1) as Hm.
  pose proof (setCurrentTime_sourceAutoSelectEnabled now s1) as Hs.
  pose proof (setCurrentTime_currentPriority now s1) as Hc.
  simpl in Hm, Hs, Hc. rewrite Hk in Hs, Hc. simpl in Hs, Hc.
  destruct (setCurrentTime now s1) as [s2 ev]. simpl in *. auto.
Qed.

(** ** The signals of a sweep *)

Lemma sweep_loop_events_priorityChanged now m np q b :
  In (priorityChanged q b) (snd (sweep_loop now m np)) ->
  b = false
  /\ exists k v, In (k, v) m /\ timed_out now v = true
                 /\ q = to_quint8 (priority v).
Proof.
  revert np. induction m as [|[k v] m IH]; intros np; simpl; [easy|].
  destruct (timed_out now v) eqn:Ht.
  - specialize (IH np). destruct (sweep_loop now m np) as [[r n] e]. simpl.
    intros [[= <- <-]|[[=]|Hin]].
    + split; [easy|]. exists k, v. auto.
    + destruct (IH Hin) as (Hb & k' & v' & H1 & H2 & H3).
      split; [easy|]. exists k', v'. auto.
  - match goal with |- context [sweep_loop now m ?x] => specialize (IH x);
      destruct (sweep_loop now m x) as [[r n] e] end.
    simpl. intros Hin. apply in_app_or in Hin. destruct Hin as [Hin|Hin].
    + destruct ((priority v <? 254) && _ && _); simpl in Hin;
        [destruct Hin as [[=]|[]] | easy].
    + destruct (IH Hin) as (Hb & k' & v' & H1 & H2 & H3).
      split; [easy|]. exists k', v'. auto.
Qed.

Lemma sweep_loop_events_visible now m np v :
  ~ In (visiblePriorityChanged v) (snd (sweep_loop now m np)).
Proof.
  revert np. induction m as [|[k i] m IH]; intros np; simpl; [easy|].
  destruct (timed_out now i).
  - specialize (IH np). destruct (sweep_loop now m np) as [[r n] e]. simpl.
    intros [[=]|[[=]|Hin]]. auto.
  - match goal with |- context [sweep_loop now m ?x] => specialize (IH x);
      destruct (sweep_loop now m x) as [[r n] e] end.
    simpl. intros Hin. apply in_app_or in Hin. destruct Hin as [Hin|Hin];
      [|auto].
    destruct ((priority i <? 254) && _ && _); simpl in Hin;
      [destruct Hin as [[=]|[]] | easy].
Qed.

(** The trace of a sweep: the signals of the loop, then [autoSelectChanged]
    when the pin was lost, then the visible-priority signals on a change. *)
Lemma setCurrentTime_events now s :
  exists ev_auto,
    snd (setCurrentTime now s)
    = snd (sweep_loop now (_activeInputs s)
             (if QMap.contains 0 (_activeInputs s) then 0
              else LOWEST_PRIORITY))
      ++ ev_auto
      ++ (if negb (_currentPriority s
                   =? _currentPriority (fst (setCurrentTime now s)))
          then [visiblePriorityChanged
                  (_currentPriority (fst (setCurrentTime now s)));
                prioritiesChanged]
          else [])
    /\ (ev_auto = [] \/ ev_auto = [autoSelectChanged true]).
Proof.
  unfold setCurrentTime, setSourceAutoSelectEnabled_with.
  destruct (sweep_loop now _ _) as [[m np] ev]. simpl.
  destruct (_sourceAutoSelectEnabled s) eqn:Ha; simpl.
  - exists []. auto.
  - destruct (QMap.contains _ m); simpl.
    + exists []. auto.
    + exists [autoSelectChanged true]. auto.
Qed.

Lemma setCurrentTime_events_priorityChanged now s q b :
  In (priorityChanged q b) (snd (setCurrentTime now s)) ->
  b = false
  /\ exists k v, In (k, v) (_activeInputs s) /\ timed_out now v = true
                 /\ q = to_quint8 (priority v).
Proof.
  destruct (setCurrentTime_events now s) as (ev_auto & -> & Hauto).
  intros Hin. apply in_app_or in Hin. destruct Hin as [Hin|Hin];
    [eapply sweep_loop_events_priorityChanged; eauto|].
  apply in_app_or in Hin. destruct Hin as [Hin|Hin].
  - destruct Hauto as [-> | ->]; simpl in Hin; [easy|].
    destruct Hin as [[=]|[]].
  - destruct (negb _); simpl in Hin; [|easy].
    destruct Hin as [[=]|[[=]|[]]].
Qed.

Lemma to_quint8_id z : 0 <= z <= LOWEST_PRIORITY -> to_quint8 z = z.
Proof.
  unfold to_quint8, LOWEST_PRIORITY. intros H. apply Z.mod_small. lia.
Qed.

(** A record without a positive deadline stays through any number of sweeps,
    and no sweep signals its removal. *)
Lemma sweeps_keep nows : forall s p r,
  wf s = true ->
  QMap.find p (_activeInputs s) = Some r -> timeoutTime_ms r <= 0 ->
  QMap.find p
    (_activeInputs (fst (run (map (fun n => (n, OpSetCurrentTime)) nows) s)))
  = Some r
  /\ ~ In (priorityChanged p false)
         (snd (run (map (fun n => (n, OpSetCurrentTime)) nows) s)).
Proof.
  induction nows as [|now nows IH]; intros s p r Hwf Hf Ht; simpl; [auto|].
  assert (Hnt : timed_out now r = false).
  { unfold timed_out. apply andb_false_iff. left. apply Z.ltb_ge. lia. }
  pose proof (wf_setCurrentTime now s Hwf) as Hwf1.
  pose proof (setCurrentTime_activeInputs now s) as Htab.
  assert (Hev : ~ In (priorityChanged p false) (snd (setCurrentTime now s))).
  { intros Hin. apply setCurrentTime_events_priorityChanged in Hin.
    destruct Hin as (_ & k & v & Hin & Hto & Hq).
    apply wf_elim in Hwf. destruct Hwf as [Hwf _].
    destruct (wf_from_In _ _ _ _ Hwf Hin) as (Hr & Hp & Hfk).
    rewrite Hp, to_quint8_id in Hq by easy. subst k. congruence. }
  destruct (setCurrentTime now s) as [s1 ev1]. simpl in *.
  assert (Hf1 : QMap.find p (_activeInputs s1) = Some r).
  { rewrite Htab. apply find_filter_keep; [easy|]. simpl. now rewrite Hnt. }
  destruct (IH s1 p r Hwf1 Hf1 Ht) as [IH1 IH2].
  destruct (run _ s1) as [s2 ev2]. simpl in *. split; [easy|].
  intros Hin. apply in_app_or in Hin. tauto.
Qed.

(** ** C3: a timeout of zero *)

(** C3, as stated, fails: after [setInput(50, colors, 0)] the next sweep
    leaves priority 50 in the table, with timeout 0, and signals no removal;
    50 is even the visible priority. *)
Lemma C3_counterexample :
  option_map timeoutTime_ms
    (QMap.find 50 (_activeInputs (fst (run C3_calls (PriorityMuxer 3)))))
  = Some 0
  /\ ~ In (priorityChanged 50 false) (snd (run C3_calls (PriorityMuxer 3)))
  /\ _currentPriority (fst (run C3_calls (PriorityMuxer 3))) = 50.
Proof.
  split; [reflexivity|]. split; [|reflexivity].
  vm_compute. intros H.
  repeat (destruct H as [H|H]; [discriminate H|]). exact H.
Qed.

(** C3 (amended): for every registered priority [p], [setInput] and
    [setInputImage] with [timeout_ms = 0] store the timeout 0 unchanged; the
    record is not inactive, and it stays in the table through every later
    sweep, none of which emits [priorityChanged(p, false)]: a timeout of zero
    never expires. *)
Theorem C3_zero_timeout_never_expires s now now' p colors img nows :
  reachable s ->
  QMap.contains p (_activeInputs s) = true ->
  let sweeps := map (fun n => (n, OpSetCurrentTime)) nows in
  (exists r,
     QMap.find p
       (_activeInputs (snd (fst (setInput now now' p colors 0 s))))
     = Some r
     /\ timeoutTime_ms r = 0 /\ is_active r = true
     /\ QMap.find p
          (_activeInputs
             (fst (run sweeps
                     (snd (fst (setInput now now' p colors 0 s))))))
        = Some r
     /\ ~ In (priorityChanged p false)
            (snd (run sweeps
                    (snd (fst (setInput now now' p colors 0 s))))))
  /\ (exists r,
     QMap.find p
       (_activeInputs (snd (fst (setInputImage now now' p img 0 s))))
     = Some r
     /\ timeoutTime_ms r = 0 /\ is_active r = true
     /\ QMap.find p
          (_activeInputs
             (fst (run sweeps
                     (snd (fst (setInputImage now now' p img 0 s))))))
        = Some r
     /\ ~ In (priorityChanged p false)
            (snd (run sweeps
                    (snd (fst (setInputImage now now' p img 0 s)))))).
Proof.
  intros Hr Hc sweeps. apply reachable_wf in Hr.
  apply contains_find in Hc. destruct Hc as [input Hf].
  split.
  - pose proof (wf_setInput_with
      (fun input t => set_timeout_ledColors t colors input)
      now now' p 0 s (fun _ _ => eq_refl) Hr) as Hwf.
    destruct (setInput_with_find
      (fun input t => set_timeout_ledColors t colors input)
      now now' p 0 s input (fun _ _ => eq_refl) Hf
      (erased_in_call_false now now' 0 _ ltac:(lia))) as [_ Hf1].
    fold (setInput now now' p colors 0 s) in Hwf, Hf1.
    eexists. split; [exact Hf1|]. split; [reflexivity|].
    split; [reflexivity|]. apply sweeps_keep; auto.
    unfold final_timeout. simpl. lia.
  - pose proof (wf_setInput_with
      (fun input t => set_timeout_image t img input)
      now now' p 0 s (fun _ _ => eq_refl) Hr) as Hwf.
    destruct (setInput_with_find
      (fun input t => set_timeout_image t img input)
      now now' p 0 s input (fun _ _ => eq_refl) Hf
      (erased_in_call_false now now' 0 _ ltac:(lia))) as [_ Hf1].
    fold (setInputImage now now' p img 0 s) in Hwf, Hf1.
    eexists. split; [exact Hf1|]. split; [reflexivity|].
    split; [reflexivity|]. apply sweeps_keep; auto.
    unfold final_timeout. simpl. lia.
Qed.

Lemma C3_zero_timeout_never_expires_witness :
  reachable C3_state
  /\ QMap.contains 50 (_activeInputs C3_state) = true
  /\ exists r,
       QMap.find 50
         (_activeInputs
            (fst (run [(1250, OpSetCurrentTime); (1500, OpSetCurrentTime)]
                    (snd (fst (setInput 1000 1001 50 [BLACK] 0
                                 C3_state))))))
       = Some r
       /\ timeoutTime_ms r = 0.
Proof.
  assert (Hr : reachable C3_state)
    by (apply reachable_run; [apply reach_init | reflexivity]).
  split; [exact Hr|]. split; [reflexivity|].
  destruct (proj1 (C3_zero_timeout_never_expires C3_state 1000 1001 50
                     [BLACK] empty_image [1250; 1500] Hr eq_refl))
    as (r & _ & Ht & _ & Hf & _).
  exists r. split; [exact Hf | exact Ht].
Defined.

(** ** C4: the length of the colour buffers *)

Lemma updateLedColorsLength_loop_find n m :
  0 <= n ->
  exists m', updateLedColorsLength_loop n m = Some m'
             /\ forall p, QMap.find p m'
                          = option_map (resized n) (QMap.find p m).
Proof.
  intros Hn. induction m as [|[k v] m (m' & IH & Hfind)]; simpl.
  - exists []. auto.
  - rewrite IH. unfold resize.
    destruct (n <? 0) eqn:Hlt; [apply Z.ltb_lt in Hlt; lia|].
    exists ((k, resized n v) :: m'). split.
    + unfold resized. now destruct (ledColors v).
    + intros p. simpl. destruct (p =? k); [easy | apply Hfind].
Qed.

Lemma resize_length (n : nat) (c : ColorRgb) l :
  List.length (firstn n l ++ repeat c (n - List.length l)) = n.
Proof. rewrite length_app, length_firstn, repeat_length. lia. Qed.

Lemma resize_nth (n : nat) (c : ColorRgb) l i :
  (i < n)%nat ->
  nth i (firstn n l ++ repeat c (n - List.length l)) c
  = if (i <? List.length l)%nat then nth i l c else c.
Proof.
  intros Hi. destruct (i <? List.length l)%nat eqn:Hl.
  - apply Nat.ltb_lt in Hl. rewrite app_nth1
      by (rewrite length_firstn; lia).
    rewrite nth_firstn. apply Nat.ltb_lt in Hi. now rewrite Hi.
  - apply Nat.ltb_ge in Hl. rewrite app_nth2
      by (rewrite length_firstn; lia).
    apply nth_repeat.
Qed.

(** C4, as stated, fails: a record registered without colours has an empty
    buffer, and [updateLedColorsLength(3)] leaves it empty; it is neither
    resized to 3 nor filled with black. *)
Lemma C4_counterexample :
  option_map ledColors (QMap.find 100 (_activeInputs C4_state)) = Some []
  /\ match updateLedColorsLength 3 C4_state with
     | Some s' =>
         option_map ledColors (QMap.find 100 (_activeInputs s')) = Some []
     | None => False
     end.
Proof. split; reflexivity. Qed.

(** C4 (amended): for every table and every [n >= 0],
    [updateLedColorsLength(n)] keeps the set of priorities and changes nothing
    but colour buffers; every record whose buffer is not empty gets a buffer
    of length [n] whose first slots keep their values and whose newly grown
    slots take the value of element 0; a record whose buffer is empty keeps
    the empty buffer. *)
Theorem C4_updateLedColorsLength s n :
  0 <= n ->
  exists s',
    updateLedColorsLength n s = Some s'
    /\ _currentPriority s' = _currentPriority s
    /\ _manualSelectedPriority s' = _manualSelectedPriority s
    /\ _sourceAutoSelectEnabled s' = _sourceAutoSelectEnabled s
    /\ forall p,
         match QMap.find p (_activeInputs s),
               QMap.find p (_activeInputs s') with
         | Some r, Some r' =>
             set_ledColors (ledColors r) r' = r
             /\ match ledColors r with
                | [] => ledColors r' = []
                | c0 :: _ =>
                    List.length (ledColors r') = Z.to_nat n
                    /\ forall i, (i < Z.to_nat n)%nat ->
                         nth i (ledColors r') c0
                         = if (i <? List.length (ledColors r))%nat
                           then nth i (ledColors r) c0 else c0
                end
         | None, None => True
         | _, _ => False
         end.
Proof.
  intros Hn. unfold updateLedColorsLength.
  destruct (updateLedColorsLength_loop_find n (_activeInputs s) Hn)
    as (m' & -> & Hfind).
  eexists. split; [reflexivity|]. simpl. repeat split.
  intros p. rewrite Hfind.
  destruct (QMap.find p (_activeInputs s)) as [r|]; simpl; [|easy].
  unfold resized. destruct r as [pr t l im c o g w]. simpl.
  destruct l as [|c0 l]; simpl; [easy|]. split; [easy|]. split.
  - apply (resize_length (Z.to_nat n) c0 (c0 :: l)).
  - intros i Hi. apply (resize_nth (Z.to_nat n) c0 (c0 :: l) i Hi).
Qed.

Lemma C4_updateLedColorsLength_witness :
  0 <= 5
  /\ exists s',
       updateLedColorsLength 5 (PriorityMuxer 3) = Some s'
       /\ option_map ledColors (QMap.find 255 (_activeInputs s'))
          = Some [BLACK; BLACK; BLACK; BLACK; BLACK].
Proof.
  split; [lia|].
  destruct (C4_updateLedColorsLength (PriorityMuxer 3) 5 ltac:(lia))
    as (s' & Hs & _).
  exists s'. split; [exact Hs|].
  injection Hs as <-. reflexivity.
Defined.

(** ** C10: what [setInput] and [setInputImage] change in a record *)

(** C10, as stated, fails: [setInput(20, colors, 1)] on the inactive record at
    20 stores the deadline 1001; the call then runs the sweep, which reads the
    clock anew, and at the reading 1001 the sweep erases the record the call
    has just written. *)
Lemma C10_counterexample :
  QMap.find 20 (_activeInputs C10_state)
  = Some (mkInputInfo 20 (-100) [] empty_image COMP_COLOR "x" 7 "owner")
  /\ fst (fst (setInput 1000 1001 20 [BLACK; BLACK] 1 C10_state)) = true
  /\ QMap.find 20
       (_activeInputs
          (snd (fst (setInput 1000 1001 20 [BLACK; BLACK] 1 C10_state))))
     = None
  /\ snd (setInput 1000 1001 20 [BLACK; BLACK] 1 C10_state)
     = [activeStateChanged 20 true; prioritiesChanged;
        priorityChanged 20 false; prioritiesChanged].
Proof. repeat split. Qed.

(** C10 (amended): for every registered priority [p] with record [r], unless
    the call erases the record, [setInput] returns true and leaves at [p] the
    record [r] with [timeoutTime_ms] and [ledColors] replaced, [setInputImage]
    leaves [r] with [timeoutTime_ms] and [image] replaced; the other payload,
    [priority], [componentId], [origin], [owner] and [smooth_cfg] are those
    of [r], and interleaved on the same priority, in either order, two calls
    that do not erase the record leave both payloads in it.  The call erases
    the record, and still returns true, when it crosses the inactive/active
    edge, so that it runs the sweep, with a deadline that has passed at the
    reading of the sweep. *)
Theorem C10_setInput_changes_two_fields s now now' p r colors img t :
  QMap.find p (_activeInputs s) = Some r ->
  (erased_in_call now now' t (timeoutTime_ms r) = false ->
   (fst (fst (setInput now now' p colors t s)) = true
    /\ QMap.find p
         (_activeInputs (snd (fst (setInput now now' p colors t s))))
       = Some (mkInputInfo (priority r) (final_timeout now t) colors
                 (image r) (componentId r) (origin r) (smooth_cfg r)
                 (owner r)))
   /\ (fst (fst (setInputImage now now' p img t s)) = true
       /\ QMap.find p
            (_activeInputs (snd (fst (setInputImage now now' p img t s))))
          = Some (mkInputInfo (priority r) (final_timeout now t)
                    (ledColors r) img (componentId r) (origin r)
                    (smooth_cfg r) (owner r)))
   /\ (forall now2 now2' t2,
         erased_in_call now2 now2' t2 (final_timeout now t) = false ->
         QMap.find p
           (_activeInputs
              (snd (fst (setInputImage now2 now2' p img t2
                           (snd (fst (setInput now now' p colors t s)))))))
         = Some (mkInputInfo (priority r) (final_timeout now2 t2) colors img
                   (componentId r) (origin r) (smooth_cfg r) (owner r))
         /\ QMap.find p
              (_activeInputs
                 (snd (fst (setInput now2 now2' p colors t2
                              (snd (fst (setInputImage now now' p img t
                                           s)))))))
            = Some (mkInputInfo (priority r) (final_timeout now2 t2) colors
                      img (componentId r) (origin r) (smooth_cfg r)
                      (owner r))))
  /\ (wf s = true ->
      erased_in_call now now' t (timeoutTime_ms r) = true ->
      (fst (fst (setInput now now' p colors t s)) = true
       /\ QMap.find p
            (_activeInputs (snd (fst (setInput now now' p colors t s))))
          = None)
      /\ (fst (fst (setInputImage now now' p img t s)) = true
          /\ QMap.find p
               (_activeInputs (snd (fst (setInputImage now now' p img t s))))
             = None)).
Proof.
  intros Hf.
  pose proof (fun now now' t s r =>
    setInput_with_find (fun input t => set_timeout_ledColors t colors input)
      now now' p t s r (fun _ _ => eq_refl)) as Hcol.
  pose proof (fun now now' t s r =>
    setInput_with_find (fun input t => set_timeout_image t img input)
      now now' p t s r (fun _ _ => eq_refl)) as Himg.
  split.
  - intros He.
    split; [exact (Hcol now now' t s r Hf He)|].
    split; [exact (Himg now now' t s r Hf He)|].
    intros now2 now2' t2 He2. split.
    + exact (proj2 (Himg now2 now2' t2 _ _ (proj2 (Hcol now now' t s r Hf He))
                      He2)).
    + exact (proj2 (Hcol now2 now2' t2 _ _ (proj2 (Himg now now' t s r Hf He))
                      He2)).
  - intros Hwf He. split.
    + exact (setInput_with_erased
               (fun input t => set_timeout_ledColors t colors input)
               now now' p t s r (fun _ _ => eq_refl)
               (fun _ _ => eq_refl) Hwf Hf He).
    + exact (setInput_with_erased
               (fun input t => set_timeout_image t img input)
               now now' p t s r (fun _ _ => eq_refl)
               (fun _ _ => eq_refl) Hwf Hf He).
Qed.

Lemma C10_setInput_changes_two_fields_witness :
  QMap.find 20 (_activeInputs C10_state)
  = Some (mkInputInfo 20 (-100) [] empty_image COMP_COLOR "x" 7 "owner")
  /\ erased_in_call 1000 1001 300 (-100) = false
  /\ erased_in_call 1100 1101 (-1) (final_timeout 1000 300) = false
  /\ QMap.find 20
       (_activeInputs
          (snd (fst (setInputImage 1100 1101 20 (mkImage 1 1 [BLACK]) (-1)
                       (snd (fst (setInput 1000 1001 20 [BLACK; BLACK] 300
                                    C10_state)))))))
     = Some (mkInputInfo 20 (-1) [BLACK; BLACK] (mkImage 1 1 [BLACK])
               COMP_COLOR "x" 7 "owner")
  /\ wf C10_state = true
  /\ erased_in_call 1000 1001 1 (-100) = true
  /\ QMap.find 20
       (_activeInputs
          (snd (fst (setInput 1000 1001 20 [BLACK; BLACK] 1 C10_state))))
     = None.
Proof.
  pose proof (C10_setInput_changes_two_fields C10_state 1000 1001 20
                (mkInputInfo 20 (-100) [] empty_image COMP_COLOR "x" 7
                   "owner")
                [BLACK; BLACK] (mkImage 1 1 [BLACK]) 300 eq_refl)
    as [Hkeep _].
  pose proof (C10_setInput_changes_two_fields C10_state 1000 1001 20
                (mkInputInfo 20 (-100) [] empty_image COMP_COLOR "x" 7
                   "owner")
                [BLACK; BLACK] (mkImage 1 1 [BLACK]) 1 eq_refl)
    as [_ Herase].
  split; [reflexivity|]. split; [reflexivity|]. split; [reflexivity|].
  split; [exact (proj1 (proj2 (proj2 (Hkeep eq_refl)) 1100 1101 (-1)
                          eq_refl))|].
  split; [reflexivity|]. split; [reflexivity|].
  exact (proj2 (proj1 (Herase eq_refl eq_refl))).
Defined.

(** ** C9: the order of the removal and visibility signals *)

Lemma app_split_after (A B pre post : list Event) x :
  ~ In x A -> A ++ B = pre ++ x :: post ->
  exists pre', pre = A ++ pre' /\ B = pre' ++ x :: post.
Proof.
  revert pre. induction A as [|a A IH]; intros pre Hn H; simpl in *.
  - exists pre. auto.
  - destruct pre as [|b pre]; simpl in H.
    + injection H as Ha _. subst a. exfalso. apply Hn. now left.
    + injection H as Ha H. subst b.
      destruct (IH pre) as (pre' & -> & HB); auto.
      exists pre'. auto.
Qed.

Lemma setCurrentTime_events_after_visible now s pre v post :
  snd (setCurrentTime now s) = pre ++ visiblePriorityChanged v :: post ->
  post = [prioritiesChanged].
Proof.
  destruct (setCurrentTime_events now s) as (ev_auto & -> & Hauto).
  intros H. apply app_split_after in H; [|apply sweep_loop_events_visible].
  destruct H as (pre1 & _ & H).
  apply app_split_after in H;
    [|destruct Hauto as [-> | ->]; simpl; intros [[=]|[]] || tauto].
  destruct H as (pre2 & _ & H).
  destruct (negb _); [|now destruct pre2].
  destruct pre2 as [|a [|b pre2]]; simpl in H.
  - injection H as _ H. now subst post.
  - injection H as _ H. discriminate H.
  - injection H as _ _ H. now destruct pre2.
Qed.

Lemma setCurrentTime_events_visible now s :
  _currentPriority (fst (setCurrentTime now s)) <> _currentPriority s ->
  In (visiblePriorityChanged (_currentPriority (fst (setCurrentTime now s))))
     (snd (setCurrentTime now s)).
Proof.
  intros Hne. destruct (setCurrentTime_events now s) as (ev_auto & -> & _).
  apply in_or_app. right. apply in_or_app. right.
  destruct (_currentPriority s =? _) eqn:He;
    [apply Z.eqb_eq in He; congruence | now left].
Qed.

(** C9, as stated, fails for [clearInput]: the sweep it runs emits
    [visiblePriorityChanged(255)] before the call emits
    [priorityChanged(100, false)]. *)
Lemma C9_counterexample :
  snd (clearInput 1100 100 C9_state)
  = [ visiblePriorityChanged 255; prioritiesChanged;
      priorityChanged 100 false; prioritiesChanged ].
Proof. reflexivity. Qed.

(** C9 (amended): in the trace of a sweep no [priorityChanged] follows a
    [visiblePriorityChanged]: the removals of timed-out records are signalled
    first.  In the trace of a successful [clearInput(p)] the order is the
    other one: the trace is that of the sweep the call runs, which holds the
    [visiblePriorityChanged] the removal causes, followed by
    [priorityChanged(p, false)] and [prioritiesChanged]. *)
Theorem C9_removal_and_visible_order s now :
  (forall pre v post q b,
     snd (setCurrentTime now s) = pre ++ visiblePriorityChanged v :: post ->
     ~ In (priorityChanged q b) post)
  /\ (forall p,
        fst (fst (clearInput now p s)) = true ->
        exists tr,
          snd (clearInput now p s)
          = tr ++ [priorityChanged p false; prioritiesChanged]
          /\ (_currentPriority (snd (fst (clearInput now p s)))
              <> _currentPriority s ->
              In (visiblePriorityChanged
                    (_currentPriority (snd (fst (clearInput now p s)))))
                 tr)).
Proof.
  split.
  - intros pre v post q b H.
    rewrite (setCurrentTime_events_after_visible now s pre v post H).
    intros [[=]|[]].
  - intros p. unfold clearInput.
    destruct ((p <? LOWEST_PRIORITY) && _); [|discriminate].
    intros _.
    match goal with |- context [setCurrentTime now ?x] =>
      pose proof (setCurrentTime_events_visible now x) as Hv;
      destruct (setCurrentTime now x) as [s2 ev] end.
    simpl in *. exists ev. auto.
Qed.

Lemma C9_removal_and_visible_order_witness :
  fst (fst (clearInput 1100 100 C9_state)) = true
  /\ exists tr,
       snd (clearInput 1100 100 C9_state)
       = tr ++ [priorityChanged 100 false; prioritiesChanged]
       /\ In (visiblePriorityChanged 255) tr.
Proof.
  split; [reflexivity|].
  destruct (proj2 (C9_removal_and_visible_order C9_state 1100) 100 eq_refl)
    as (tr & Htr & Hv).
  exists tr. split; [exact Htr|].
  apply Hv. vm_compute. discriminate.
Defined.

(** ** C8: the soft clear-all *)

Lemma clearAll_loop_activeInputs now keys : forall s,
  Forall (fun k => 0 <= k <= LOWEST_PRIORITY) keys ->
  _activeInputs (fst (clearAll_loop now keys s))
  = fold_left (clearAll_round now) keys (_activeInputs s).
Proof.
  induction keys as [|k keys IH]; intros s Hk; [easy|].
  cbn [clearAll_loop fold_left].
  inversion Hk as [|? ? Hr Hk']; subst.
  unfold clearAll_round at 2. unfold getInputInfo.
  destruct (QMap.find k (_activeInputs s)) as [r|] eqn:Hf.
  - fold (soft_cleared k r). destruct (soft_cleared k r) eqn:Hs.
    + rewrite to_quint8_id by easy. unfold clearInput, QMap.contains.
      rewrite Hf. unfold soft_cleared in Hs. apply andb_true_iff in Hs.
      destruct Hs as [_ Hs]. apply Z.ltb_lt in Hs.
      destruct (k <? LOWEST_PRIORITY) eqn:Hlt;
        [|apply Z.ltb_ge in Hlt; lia]. simpl.
      match goal with |- context [setCurrentTime now ?x] =>
        pose proof (setCurrentTime_activeInputs now x) as Ht;
        destruct (setCurrentTime now x) as [s1 ev1] end.
      simpl in Ht. rewrite <- Ht. specialize (IH s1 Hk').
      destruct (clearAll_loop now keys s1). exact IH.
    + specialize (IH s Hk'). destruct (clearAll_loop now keys s). exact IH.
  - assert (Hc : clearInput now (to_quint8 k) s = (false, s, [])).
    { rewrite to_quint8_id by easy. unfold clearInput, QMap.contains.
      rewrite Hf. now rewrite andb_false_r. }
    rewrite Hc. specialize (IH s Hk').
    destruct (_ && _); destruct (clearAll_loop now keys s); exact IH.
Qed.

Lemma filter_filter_and (f g : Z * InputInfo -> bool) m :
  filter f (filter g m) = filter (fun x => g x && f x) m.
Proof.
  induction m as [|x m IH]; simpl; [easy|].
  destruct (g x); simpl; [|easy]. destruct (f x); now rewrite IH.
Qed.

Lemma existsb_eqb_In k keys : existsb (Z.eqb k) keys = true <-> In k keys.
Proof.
  rewrite existsb_exists. split.
  - intros (x & Hin & He). apply Z.eqb_eq in He. now subst.
  - intros Hin. exists k. split; [easy | apply Z.eqb_refl].
Qed.

Lemma clearAll_rounds now keys : forall lo m,
  wf_from lo m = true ->
  fold_left (clearAll_round now) keys m
  = if existsb (hit m) keys then filter (kept now keys) m else m.
Proof.
  induction keys as [|k keys IH]; intros lo m Hwf; simpl; [easy|].
  unfold clearAll_round at 2. unfold hit at 1.
  destruct (QMap.find k m) as [r|] eqn:Hf.
  - destruct (soft_cleared k r) eqn:Hs; simpl.
    + assert (Hwf1 : wf_from lo (sweep_table now (QMap.remove k m)) = true).
      { apply wf_from_filter. rewrite remove_filter.
        now apply wf_from_filter. }
      rewrite (IH _ _ Hwf1).
      destruct (existsb (hit (sweep_table now (QMap.remove k m))) keys)
        eqn:Hh.
      * unfold sweep_table. rewrite remove_filter, !filter_filter_and.
        apply filter_ext_in. intros [k' r'] Hin. unfold kept. simpl.
        destruct (wf_from_In _ _ _ _ Hwf Hin) as (_ & _ & Hf').
        destruct (k' =? k) eqn:He; simpl.
        -- apply Z.eqb_eq in He. subst k'.
           assert (r' = r) by congruence. subst r'. rewrite Hs.
           now rewrite andb_false_r.
        -- now destruct (timed_out now r').
      * unfold sweep_table. rewrite remove_filter, !filter_filter_and.
        apply filter_ext_in. intros [k' r'] Hin. unfold kept. simpl.
        destruct (wf_from_In _ _ _ _ Hwf Hin) as (_ & _ & Hf').
        destruct (k' =? k) eqn:He; simpl.
        -- apply Z.eqb_eq in He. subst k'.
           assert (r' = r) by congruence. subst r'. rewrite Hs.
           now rewrite andb_false_r.
        -- destruct (timed_out now r') eqn:Hto; simpl; [easy|].
           destruct (existsb (Z.eqb k') keys) eqn:Hm; simpl; [|easy].
           destruct (soft_cleared k' r') eqn:Hs'; simpl; [|easy].
           exfalso. apply existsb_eqb_In in Hm.
           assert (Hhit : existsb (hit (sweep_table now (QMap.remove k m)))
                            keys = true).
           { apply existsb_exists. exists k'. split; [easy|].
             unfold hit, sweep_table.
             rewrite (find_filter_keep _ k' r');
               [easy| |simpl; now rewrite Hto].
             rewrite find_remove_other; [easy|].
             apply Z.eqb_neq in He. congruence. }
           congruence.
    + rewrite (IH _ _ Hwf). destruct (existsb (hit m) keys); [|easy].
      apply filter_ext_in. intros [k' r'] Hin. unfold kept. simpl.
      destruct (wf_from_In _ _ _ _ Hwf Hin) as (_ & _ & Hf').
      destruct (k' =? k) eqn:He; simpl; [|easy].
      apply Z.eqb_eq in He. subst k'. assert (r' = r) by congruence.
      subst r'. rewrite Hs. now rewrite !andb_false_r.
  - simpl. rewrite (IH _ _ Hwf). destruct (existsb (hit m) keys); [|easy].
    apply filter_ext_in. intros [k' r'] Hin. unfold kept. simpl.
    destruct (wf_from_In _ _ _ _ Hwf Hin) as (_ & _ & Hf').
    destruct (k' =? k) eqn:He; simpl; [|easy].
    apply Z.eqb_eq in He. subst k'. congruence.
Qed.

Lemma wf_from_keys_range lo m :
  wf_from lo m = true ->
  Forall (fun k => lo <= k <= LOWEST_PRIORITY) (QMap.keys m).
Proof.
  intros H. apply Forall_forall. intros k Hin. unfold QMap.keys in Hin.
  apply in_map_iff in Hin. destruct Hin as [[k' v] [<- Hin]].
  now destruct (wf_from_In _ _ _ _ H Hin).
Qed.

Lemma existsb_map_fst (f : Z -> bool) (g : Z * InputInfo -> bool) m :
  (forall x, In x m -> f (fst x) = g x) ->
  existsb f (map fst m) = existsb g m.
Proof.
  induction m as [|x m IH]; intros H; simpl; [easy|].
  rewrite (H x (or_introl eq_refl)), IH; [easy|].
  intros y Hy. apply H. now right.
Qed.

Lemma existsb_hit_keys lo m :
  wf_from lo m = true ->
  existsb (hit m) (QMap.keys m) = any_soft_cleared m.
Proof.
  intros H. unfold QMap.keys, any_soft_cleared.
  apply existsb_map_fst. intros [k v] Hin. unfold hit. simpl.
  destruct (wf_from_In _ _ _ _ H Hin) as (_ & _ & ->). easy.
Qed.

(** C8, as stated, fails: [clearInput(80)] runs a sweep, and the sweep erases
    the grabber record at 40, whose deadline has passed, although 40 is
    neither a colour nor an effect. *)
Lemma C8_counterexample :
  option_map componentId (QMap.find 40 (_activeInputs C8_state))
  = Some COMP_GRABBER
  /\ QMap.keys (_activeInputs C8_state) = [40; 80; 255]
  /\ QMap.keys (_activeInputs (fst (clearAll 1200 false C8_state))) = [255].
Proof. repeat split. Qed.

(** C8 (amended): from a reachable state, [clearAll(false)] removes every
    record whose component is colour or effect and whose priority is below
    254; when there is such a record, the sweeps of the [clearInput] calls
    also remove every record whose positive deadline has passed; every other
    record, the slot 254 included, is kept as it is, and no record is
    added. *)
Theorem C8_clearAll_soft s now p :
  reachable s ->
  QMap.find p (_activeInputs (fst (clearAll now false s)))
  = match QMap.find p (_activeInputs s) with
    | Some r =>
        if soft_cleared p r then None
        else if any_soft_cleared (_activeInputs s) && timed_out now r
             then None
             else Some r
    | None => None
    end.
Proof.
  intros Hr. apply reachable_wf, wf_elim in Hr. destruct Hr as [Hwf _].
  unfold clearAll.
  rewrite clearAll_loop_activeInputs by (now apply wf_from_keys_range).
  rewrite (clearAll_rounds now _ 0 _ Hwf), (existsb_hit_keys 0 _ Hwf).
  destruct (any_soft_cleared (_activeInputs s)) eqn:Hany; simpl.
  - rewrite (find_filter_wf _ 0 p _ Hwf).
    destruct (QMap.find p (_activeInputs s)) as [r|] eqn:Hf; [|easy].
    unfold kept. simpl.
    assert (Hin : existsb (Z.eqb p) (QMap.keys (_activeInputs s)) = true).
    { apply existsb_eqb_In. unfold QMap.keys. apply in_map_iff.
      exists (p, r). split; [easy | now apply find_In]. }
    rewrite Hin. simpl.
    destruct (soft_cleared p r); simpl; [now rewrite andb_false_r|].
    now destruct (timed_out now r).
  - destruct (QMap.find p (_activeInputs s)) as [r|] eqn:Hf; [|easy].
    destruct (soft_cleared p r) eqn:Hs; [|easy].
    exfalso. unfold any_soft_cleared in Hany.
    assert (Ht : existsb (fun kv => soft_cleared (fst kv) (snd kv))
                   (_activeInputs s) = true).
    { apply existsb_exists. exists (p, r). split; [now apply find_In|easy]. }
    congruence.
Qed.

Lemma C8_clearAll_soft_witness :
  reachable C8_scenario
  /\ QMap.find 80 (_activeInputs (fst (clearAll 1200 false C8_scenario)))
     = None
  /\ option_map componentId
       (QMap.find 40 (_activeInputs (fst (clearAll 1200 false C8_scenario))))
     = Some COMP_GRABBER.
Proof.
  assert (Hr : reachable C8_scenario)
    by (apply reachable_run; [apply reach_init | reflexivity]).
  split; [exact Hr|]. split.
  - rewrite (C8_clearAll_soft C8_scenario 1200 80 Hr). reflexivity.
  - rewrite (C8_clearAll_soft C8_scenario 1200 40 Hr). reflexivity.
Defined.

(** * Further properties of the member functions *)

(** ** The read accessors: [getPriorities], [hasPriority], [getInputInfo] *)

Lemma contains_In_keys k m :
  QMap.contains k m = true <-> In k (QMap.keys m).
Proof.
  unfold QMap.contains, QMap.keys.
  induction m as [|[k' v] m IH]; simpl; [split; [discriminate | tauto]|].
  destruct (k =? k') eqn:He.
  - apply Z.eqb_eq in He. subst. split; auto.
  - apply Z.eqb_neq in He. rewrite IH. split; [auto|].
    intros [H|H]; [congruence | easy].
Qed.

Lemma wf_from_keys_ascending lo m :
  wf_from lo m = true ->
  forall pre k post, QMap.keys m = pre ++ k :: post ->
    Forall (fun j => lo <= j < k) pre /\ Forall (fun j => k < j) post.
Proof.
  revert lo. induction m as [|[k' v] m IH]; intros lo H pre k post Hk.
  - now destruct pre.
  - simpl in H. rewrite !andb_true_iff in H. destruct H as [[[H1 H2] _] H4].
    apply Z.leb_le in H1. pose proof (wf_from_keys_range _ _ H4) as Hr.
    change (k' :: QMap.keys m = pre ++ k :: post) in Hk.
    destruct pre as [|j pre]; simpl in Hk; injection Hk as <- Hk;
      rewrite Hk in Hr.
    + split; [constructor|].
      eapply Forall_impl; [|exact Hr]. simpl. intros; lia.
    + destruct (IH _ H4 _ _ _ Hk) as [Hpre Hpost].
      split; [|easy]. constructor.
      * apply Forall_app in Hr. destruct Hr as [_ Hr].
        inversion Hr; subst. lia.
      * eapply Forall_impl; [|exact Hpre]. simpl. intros; lia.
Qed.

(** X1: in every reachable state [getPriorities] lists the registered
    priorities in strictly ascending order (whatever precedes a key in the
    list is smaller, whatever follows is larger, so no key occurs twice),
    every key lies in [0..255], and the record stored under a key carries that
    key in its [priority] field. *)
Theorem getPriorities_ascending s :
  reachable s ->
  (forall pre k post, getPriorities s = pre ++ k :: post ->
     Forall (fun j => 0 <= j < k) pre /\ Forall (fun j => k < j) post)
  /\ Forall (fun k => 0 <= k <= LOWEST_PRIORITY) (getPriorities s)
  /\ (forall p r, QMap.find p (_activeInputs s) = Some r -> priority r = p).
Proof.
  intros Hr. apply reachable_wf, wf_elim in Hr. destruct Hr as [Hwf _].
  split; [now apply wf_from_keys_ascending|].
  split; [now apply wf_from_keys_range|].
  intros p r Hf. now destruct (wf_from_find _ _ _ _ Hwf Hf).
Qed.

Lemma getPriorities_ascending_witness :
  reachable example_state
  /\ getPriorities example_state = [20; 40; 80; 255]
  /\ Forall (fun j => 0 <= j < 80) [20; 40] /\ Forall (fun j => 80 < j) [255].
Proof.
  assert (Hr : reachable example_state)
    by (apply reachable_run; [apply reach_init | reflexivity]).
  split; [exact Hr|]. split; [reflexivity|].
  exact (proj1 (getPriorities_ascending example_state Hr)
           [20; 40] 80 [255] eq_refl).
Defined.

(** X2: [hasPriority(p)] answers true exactly for [LOWEST_PRIORITY] and for
    the priorities [getPriorities] lists; for 255 it answers true whether or
    not the table holds the key. *)
Theorem hasPriority_getPriorities p s :
  hasPriority p s = true
  <-> p = LOWEST_PRIORITY \/ In p (getPriorities s).
Proof.
  unfold hasPriority, getPriorities.
  destruct (p =? LOWEST_PRIORITY) eqn:He.
  - apply Z.eqb_eq in He. split; auto.
  - apply Z.eqb_neq in He. rewrite contains_In_keys. split; [auto|].
    intros [H|H]; [congruence | easy].
Qed.

(** X3: in every reachable state [getInputInfo(p)] returns the record
    registered under [p] when there is one; otherwise the record stored
    under [LOWEST_PRIORITY], and the constructor's copy of it when the table
    has lost that one too.  Each of the two fallbacks has priority 255, so
    the [priority] field of the result tells the caller whether it got the
    record it asked for. *)
Theorem getInputInfo_priority p s :
  reachable s ->
  (forall r, QMap.find p (_activeInputs s) = Some r -> getInputInfo p s = r)
  /\ (QMap.find p (_activeInputs s) = None ->
      forall r, QMap.find LOWEST_PRIORITY (_activeInputs s) = Some r ->
                getInputInfo p s = r)
  /\ (QMap.find p (_activeInputs s) = None ->
      QMap.find LOWEST_PRIORITY (_activeInputs s) = None ->
      getInputInfo p s = _lowestPriorityInfo s)
  /\ priority (getInputInfo p s)
     = if QMap.contains p (_activeInputs s) then p else LOWEST_PRIORITY.
Proof.
  intros Hr. apply reachable_wf, wf_elim in Hr. destruct Hr as [Hwf Hl].
  unfold getInputInfo, QMap.contains.
  split; [intros r ->; reflexivity|].
  split; [intros -> r ->; reflexivity|].
  split; [intros -> ->; reflexivity|].
  destruct (QMap.find p (_activeInputs s)) as [r|] eqn:Hf.
  - now destruct (wf_from_find _ _ _ _ Hwf Hf).
  - destruct (QMap.find LOWEST_PRIORITY (_activeInputs s)) as [r|] eqn:Hf';
      [|exact Hl].
    now destruct (wf_from_find _ _ _ _ Hwf Hf').
Qed.

Lemma getInputInfo_priority_witness :
  reachable example_state
  /\ priority (getInputInfo 80 example_state) = 80
  /\ priority (getInputInfo 90 example_state) = LOWEST_PRIORITY
  /\ getInputInfo 90 example_state
     = mkInputInfo LOWEST_PRIORITY (-1) [BLACK; BLACK; BLACK] empty_image
         COMP_COLOR "System" 0 EmptyString
  /\ reachable (fst (run C2_calls (PriorityMuxer 3)))
  /\ QMap.find LOWEST_PRIORITY
       (_activeInputs (fst (run C2_calls (PriorityMuxer 3)))) = None
  /\ getInputInfo 90 (fst (run C2_calls (PriorityMuxer 3)))
     = _lowestPriorityInfo (fst (run C2_calls (PriorityMuxer 3))).
Proof.
  assert (Hr : reachable example_state)
    by (apply reachable_run; [apply reach_init | reflexivity]).
  assert (Hr2 : reachable (fst (run C2_calls (PriorityMuxer 3))))
    by (apply reachable_run; [apply reach_init | reflexivity]).
  split; [exact Hr|]. split.
  - exact (proj2 (proj2 (proj2 (getInputInfo_priority 80 example_state Hr)))).
  - split.
    + exact (proj2 (proj2 (proj2
               (getInputInfo_priority 90 example_state Hr)))).
    + split.
      * exact (proj1 (proj2 (getInputInfo_priority 90 example_state Hr))
                 eq_refl _ eq_refl).
      * split; [exact Hr2|]. split; [reflexivity|].
        exact (proj1 (proj2 (proj2
                 (getInputInfo_priority 90
                    (fst (run C2_calls (PriorityMuxer 3))) Hr2)))
                 eq_refl eq_refl).
Defined.

(** ** The sweep, signal by signal *)

Lemma sweep_loop_events now m np :
  snd (sweep_loop now m np) = flat_map (loop_signals now) m.
Proof.
  revert np. induction m as [|[k v] m IH]; intros np; simpl; [easy|].
  unfold loop_signals at 1. simpl. destruct (timed_out now v).
  - specialize (IH np). destruct (sweep_loop now m np) as [[r n] e].
    simpl in *. now rewrite IH.
  - match goal with |- context [sweep_loop now m ?x] => specialize (IH x);
      destruct (sweep_loop now m x) as [[r n] e] end.
    simpl in *. rewrite IH. unfold triggers. now destruct (_ && _ && _).
Qed.

Lemma setCurrentTime_events_exact now s :
  snd (setCurrentTime now s)
  = flat_map (loop_signals now) (_activeInputs s)
    ++ (if negb (_sourceAutoSelectEnabled s)
           && negb (QMap.contains (_manualSelectedPriority s)
                      (sweep_table now (_activeInputs s)))
        then [autoSelectChanged true] else [])
    ++ (if negb (_currentPriority s
                 =? _currentPriority (fst (setCurrentTime now s)))
        then [visiblePriorityChanged
                (_currentPriority (fst (setCurrentTime now s)));
              prioritiesChanged]
        else []).
Proof.
  rewrite <- (sweep_loop_events now (_activeInputs s)
                (if QMap.contains 0 (_activeInputs s) then 0
                 else LOWEST_PRIORITY)).
  unfold setCurrentTime, setSourceAutoSelectEnabled_with.
  rewrite <- (sweep_loop_table now (_activeInputs s)
                (if QMap.contains 0 (_activeInputs s) then 0
                 else LOWEST_PRIORITY)).
  destruct (sweep_loop now _ _) as [[m np] ev]. simpl.
  destruct (_sourceAutoSelectEnabled s) eqn:Ha; simpl; [easy|].
  destruct (QMap.contains _ m); simpl; easy.
Qed.

Lemma Muxer_ext a b :
  _currentPriority a = _currentPriority b ->
  _manualSelectedPriority a = _manualSelectedPriority b ->
  _activeInputs a = _activeInputs b ->
  _lowestPriorityInfo a = _lowestPriorityInfo b ->
  _sourceAutoSelectEnabled a = _sourceAutoSelectEnabled b ->
  a = b.
Proof. destruct a, b. simpl. now intros -> -> -> -> ->. Qed.

Lemma sweep_table_idempotent now m :
  sweep_table now (sweep_table now m) = sweep_table now m.
Proof.
  unfold sweep_table. rewrite filter_filter_and. apply filter_ext.
  intros kv. now destruct (timed_out now (snd kv)).
Qed.

(** X4: a sweep from a reachable state removes exactly the records whose
    positive deadline has passed ([0 < timeoutTime_ms <= now]) and leaves
    every other record as it was; it emits [priorityChanged(p, false)] for
    exactly the priorities it removes and never a [priorityChanged(p,
    true)]. *)
Theorem setCurrentTime_expires_exactly now s :
  reachable s ->
  (forall p,
     QMap.find p (_activeInputs (fst (setCurrentTime now s)))
     = match QMap.find p (_activeInputs s) with
       | Some r => if timed_out now r then None else Some r
       | None => None
       end)
  /\ (forall p b,
        In (priorityChanged p b) (snd (setCurrentTime now s))
        <-> b = false
            /\ exists r, QMap.find p (_activeInputs s) = Some r
                         /\ timed_out now r = true).
Proof.
  intros Hr. apply reachable_wf, wf_elim in Hr. destruct Hr as [Hwf _].
  split.
  - intros p. rewrite setCurrentTime_activeInputs.
    apply (sweep_table_find 0 now _ p Hwf).
  - intros p b. split.
    + intros Hin. apply setCurrentTime_events_priorityChanged in Hin.
      destruct Hin as (Hb & k & v & Hin & Hto & Hp). split; [easy|].
      destruct (wf_from_In _ _ _ _ Hwf Hin) as (Hrange & Hk & Hf).
      rewrite Hk, to_quint8_id in Hp by easy. subst. eauto.
    + intros (-> & r & Hf & Hto). rewrite setCurrentTime_events_exact.
      apply in_or_app. left. apply in_flat_map. exists (p, r).
      split; [now apply find_In|]. unfold loop_signals. simpl. rewrite Hto.
      destruct (wf_from_find _ _ _ _ Hwf Hf) as [Hrange ->].
      rewrite to_quint8_id by easy. now left.
Qed.

Lemma setCurrentTime_expires_exactly_witness :
  reachable example_state
  /\ QMap.find 40 (_activeInputs (fst (setCurrentTime 1250 example_state)))
     = None
  /\ In (priorityChanged 40 false) (snd (setCurrentTime 1250 example_state))
  /\ QMap.contains 80
       (_activeInputs (fst (setCurrentTime 1250 example_state))) = true.
Proof.
  assert (Hr : reachable example_state)
    by (apply reachable_run; [apply reach_init | reflexivity]).
  pose proof (setCurrentTime_expires_exactly 1250 example_state Hr)
    as [Hfind Hev].
  split; [exact Hr|]. split; [|split].
  - rewrite (Hfind 40). reflexivity.
  - apply (proj2 (Hev 40 false)). split; [reflexivity|].
    eexists. split; reflexivity.
  - unfold QMap.contains. rewrite (Hfind 80). reflexivity.
Defined.

(** X5: a sweep emits [signalTimeTrigger] once for every record it keeps that
    is a colour or an effect, has a positive deadline and a priority below
    254, and for no other record: records without a deadline, grabbers and
    streams, and the slots 254 and 255 never request the time trigger. *)
Theorem setCurrentTime_signalTimeTrigger_count now s :
  List.length (filter is_signalTimeTrigger (snd (setCurrentTime now s)))
  = List.length (filter (fun kv => triggers (snd kv))
                   (sweep_table now (_activeInputs s))).
Proof.
  rewrite setCurrentTime_events_exact, !filter_app, !length_app.
  replace (List.length (filter is_signalTimeTrigger
             (if negb (_sourceAutoSelectEnabled s) && _
              then [autoSelectChanged true] else []))) with 0%nat
    by (now destruct (negb (_sourceAutoSelectEnabled s) && _)).
  replace (List.length (filter is_signalTimeTrigger
             (if negb (_currentPriority s =? _) then _ else []))) with 0%nat
    by (now destruct (negb (_currentPriority s =? _))).
  rewrite !Nat.add_0_r. unfold sweep_table.
  induction (_activeInputs s) as [|[k v] m IH]; simpl; [easy|].
  rewrite filter_app, length_app, IH. unfold loop_signals. simpl.
  destruct (timed_out now v); simpl; [easy|].
  now destruct (triggers v).
Qed.

(** X6: a second sweep at the same clock reading changes nothing.  If
    priority 0 is not among the records the first sweep removes, the state a
    sweep from a reachable state leaves is a fixed point of the sweep, and
    the second sweep emits nothing but [signalTimeTrigger]. *)
Theorem setCurrentTime_twice now s :
  reachable s ->
  QMap.contains 0 (sweep_table now (_activeInputs s))
  = QMap.contains 0 (_activeInputs s) ->
  fst (setCurrentTime now (fst (setCurrentTime now s)))
  = fst (setCurrentTime now s)
  /\ forallb is_signalTimeTrigger
       (snd (setCurrentTime now (fst (setCurrentTime now s)))) = true.
Proof.
  intros Hr H0. apply reachable_wf, wf_elim in Hr. destruct Hr as [Hwf _].
  pose proof (wf_from_filter (fun kv => negb (timed_out now (snd kv))) _ _ Hwf)
    as Hwf'. fold (sweep_table now (_activeInputs s)) in Hwf'.
  assert (Hc : _currentPriority
                 (fst (setCurrentTime now (fst (setCurrentTime now s))))
               = _currentPriority (fst (setCurrentTime now s))).
  { rewrite (setCurrentTime_currentPriority now (fst (setCurrentTime now s))).
    rewrite setCurrentTime_sourceAutoSelectEnabled,
      setCurrentTime_manualSelectedPriority, setCurrentTime_activeInputs.
    rewrite (setCurrentTime_currentPriority now s).
    rewrite sweep_table_idempotent, H0.
    rewrite (sweep_loop_newPriority now 0 _ _ Hwf').
    rewrite (sweep_loop_newPriority now 0 _ _ Hwf).
    rewrite sweep_table_idempotent.
    destruct (_sourceAutoSelectEnabled s); simpl; [reflexivity|].
    destruct (QMap.contains (_manualSelectedPriority s)
                (sweep_table now (_activeInputs s)));
      reflexivity. }
  split.
  - apply Muxer_ext.
    + exact Hc.
    + apply setCurrentTime_manualSelectedPriority.
    + rewrite !setCurrentTime_activeInputs. apply sweep_table_idempotent.
    + apply setCurrentTime_lowestPriorityInfo.
    + rewrite (setCurrentTime_sourceAutoSelectEnabled now
                 (fst (setCurrentTime now s))).
      rewrite setCurrentTime_sourceAutoSelectEnabled,
        setCurrentTime_manualSelectedPriority, setCurrentTime_activeInputs,
        sweep_table_idempotent.
      destruct (_sourceAutoSelectEnabled s); simpl; [reflexivity|].
      destruct (QMap.contains (_manualSelectedPriority s)
                (sweep_table now (_activeInputs s)));
        reflexivity.
  - rewrite setCurrentTime_events_exact, Hc, Z.eqb_refl.
    rewrite setCurrentTime_sourceAutoSelectEnabled,
      setCurrentTime_manualSelectedPriority, setCurrentTime_activeInputs,
      sweep_table_idempotent. simpl. rewrite !forallb_app.
    rewrite !andb_true_iff. split; [|split].
    + apply forallb_forall. intros e Hin. apply in_flat_map in Hin.
      destruct Hin as ([k v] & Hin & He). unfold sweep_table in Hin.
      apply filter_In in Hin. destruct Hin as [_ Hk]. simpl in Hk.
      unfold loop_signals in He. simpl in He.
      apply negb_true_iff in Hk. rewrite Hk in He.
      destruct (triggers v); simpl in He; [|easy].
      destruct He as [<-|[]]. reflexivity.
    + destruct (_sourceAutoSelectEnabled s); simpl; [reflexivity|].
      destruct (QMap.contains (_manualSelectedPriority s)
                (sweep_table now (_activeInputs s)));
        reflexivity.
    + reflexivity.
Qed.

Lemma setCurrentTime_twice_witness :
  reachable example_state
  /\ fst (setCurrentTime 1250 (fst (setCurrentTime 1250 example_state)))
     = fst (setCurrentTime 1250 example_state).
Proof.
  assert (Hr : reachable example_state)
    by (apply reachable_run; [apply reach_init | reflexivity]).
  split; [exact Hr|].
  exact (proj1 (setCurrentTime_twice 1250 example_state Hr eq_refl)).
Defined.

(** ** Auto-select and the manual pin *)

(** X7: [setSourceAutoSelectEnabled] refuses, returning false, exactly when
    the mode is already the requested one or when auto-select is to be
    disabled while the pinned priority is not in the table; a refused call
    leaves the state as it is and emits no signal. *)
Theorem setSourceAutoSelectEnabled_refused now enable update s :
  (fst (fst (setSourceAutoSelectEnabled now enable update s)) = false
   <-> _sourceAutoSelectEnabled s = enable
       \/ (enable = false
           /\ QMap.contains (_manualSelectedPriority s) (_activeInputs s)
              = false))
  /\ (fst (fst (setSourceAutoSelectEnabled now enable update s)) = false ->
      setSourceAutoSelectEnabled now enable update s = (false, s, [])).
Proof.
  assert (Hacc : forall s1,
    fst (fst (let '(s2, ev) := if update then setCurrentTime now s1
                               else (s1, []) in
              (true, s2, ev ++ [autoSelectChanged enable]))) = true).
  { intros s1. destruct update; [|reflexivity].
    now destruct (setCurrentTime now s1). }
  unfold setSourceAutoSelectEnabled, setSourceAutoSelectEnabled_with.
  destruct (Bool.eqb (_sourceAutoSelectEnabled s) enable) eqn:He; simpl.
  - apply Bool.eqb_prop in He. split; [split|]; auto.
  - apply Bool.eqb_false_iff in He.
    destruct (negb enable
              && negb (QMap.contains (_manualSelectedPriority s)
                         (_activeInputs s))) eqn:Hp.
    + apply andb_true_iff in Hp. destruct Hp as [Hp1 Hp2].
      apply negb_true_iff in Hp1, Hp2. split; [split|]; auto.
    + rewrite Hacc. split; [|discriminate].
      split; [discriminate|]. intros [H|[H1 H2]]; [contradiction|].
      rewrite H1, H2 in Hp. discriminate.
Qed.

Lemma setPriority_accepted now p s :
  _sourceAutoSelectEnabled s = true ->
  QMap.contains p (_activeInputs s) = true ->
  setPriority now p s
  = (true,
     fst (setCurrentTime now
            (set_sourceAutoSelectEnabled false
               (set_manualSelectedPriority p s))),
     snd (setCurrentTime now
            (set_sourceAutoSelectEnabled false
               (set_manualSelectedPriority p s)))
     ++ [autoSelectChanged false]).
Proof.
  intros Ha Hc. unfold setPriority. rewrite Hc.
  unfold setSourceAutoSelectEnabled, setSourceAutoSelectEnabled_with.
  simpl. rewrite Ha, Hc. simpl.
  now destruct (setCurrentTime now _) as [s2 ev].
Qed.

(** X8: from auto-select mode, [setPriority(p)] on a priority that is in the
    table and has not timed out returns true, pins [p], disables auto-select
    and publishes [p] before it returns; the table is the one a sweep leaves,
    [p] still in it, and the last signal is [autoSelectChanged(false)]. *)
Theorem setPriority_pins now p s r :
  _sourceAutoSelectEnabled s = true ->
  QMap.find p (_activeInputs s) = Some r -> timed_out now r = false ->
  fst (fst (setPriority now p s)) = true
  /\ _manualSelectedPriority (snd (fst (setPriority now p s))) = p
  /\ _sourceAutoSelectEnabled (snd (fst (setPriority now p s))) = false
  /\ _currentPriority (snd (fst (setPriority now p s))) = p
  /\ _activeInputs (snd (fst (setPriority now p s)))
     = sweep_table now (_activeInputs s)
  /\ QMap.find p (_activeInputs (snd (fst (setPriority now p s)))) = Some r
  /\ exists ev, snd (setPriority now p s) = ev ++ [autoSelectChanged false].
Proof.
  intros Ha Hf Hto.
  destruct (setPriority_from_auto_select now p s r Ha Hf Hto)
    as (H1 & H2 & H3 & H4).
  repeat (split; [assumption|]).
  rewrite (setPriority_accepted now p s Ha) by (apply contains_find; eauto).
  simpl. rewrite setCurrentTime_activeInputs. simpl.
  split; [reflexivity|]. split; [|eauto].
  apply find_filter_keep; [easy|]. simpl. now rewrite Hto.
Qed.

Lemma setPriority_pins_witness :
  _sourceAutoSelectEnabled example_state = true
  /\ _currentPriority example_state = 40
  /\ _currentPriority (snd (fst (setPriority 1050 80 example_state))) = 80
  /\ _sourceAutoSelectEnabled (snd (fst (setPriority 1050 80 example_state)))
     = false.
Proof.
  split; [reflexivity|]. split; [reflexivity|].
  pose proof (setPriority_pins 1050 80 example_state
                (mkInputInfo 80 (-1) [BLACK; BLACK; BLACK] empty_image
                   COMP_COLOR "ui" 0 EmptyString)
                eq_refl eq_refl eq_refl) as (_ & _ & Ha & Hc & _).
  split; [exact Hc | exact Ha].
Defined.

(** X9: a pin that has just timed out.  From auto-select mode, [setPriority]
    on a priority that is still in the table but whose deadline has passed
    returns true, yet the sweep it runs removes the record and switches back
    to auto-select: when the call returns auto-select is enabled and the
    priority is gone, while the signals end with [autoSelectChanged(true)]
    followed by [autoSelectChanged(false)]. *)
Theorem setPriority_timed_out_pin now p s r :
  reachable s ->
  _sourceAutoSelectEnabled s = true ->
  QMap.find p (_activeInputs s) = Some r -> timed_out now r = true ->
  fst (fst (setPriority now p s)) = true
  /\ _sourceAutoSelectEnabled (snd (fst (setPriority now p s))) = true
  /\ QMap.contains p (_activeInputs (snd (fst (setPriority now p s)))) = false
  /\ exists ev ev',
       snd (setPriority now p s)
       = ev ++ autoSelectChanged true :: ev' ++ [autoSelectChanged false].
Proof.
  intros Hr Ha Hf Hto. apply reachable_wf, wf_elim in Hr.
  destruct Hr as [Hwf _].
  assert (Hc : QMap.contains p (_activeInputs s) = true)
    by (apply contains_find; eauto).
  rewrite (setPriority_accepted now p s Ha Hc). simpl.
  assert (Hgone : QMap.contains p (sweep_table now (_activeInputs s)) = false).
  { apply contains_false_find. rewrite (sweep_table_find 0 now _ p Hwf), Hf.
    now rewrite Hto. }
  rewrite setCurrentTime_sourceAutoSelectEnabled, setCurrentTime_activeInputs,
    setCurrentTime_events_exact. simpl. rewrite Hgone. simpl.
  repeat split. rewrite <- !app_assoc. simpl. eexists. eexists. reflexivity.
Qed.

Lemma setPriority_timed_out_pin_witness :
  reachable example_state
  /\ fst (fst (setPriority 1250 40 example_state)) = true
  /\ _sourceAutoSelectEnabled (snd (fst (setPriority 1250 40 example_state)))
     = true
  /\ QMap.contains 40
       (_activeInputs (snd (fst (setPriority 1250 40 example_state)))) = false.
Proof.
  assert (Hr : reachable example_state)
    by (apply reachable_run; [apply reach_init | reflexivity]).
  split; [exact Hr|].
  pose proof (setPriority_timed_out_pin 1250 40 example_state
                (mkInputInfo 40 1100 [] (mkImage 1 1 [BLACK]) COMP_GRABBER
                   "grabber" 0 EmptyString)
                Hr eq_refl eq_refl eq_refl) as (H1 & H2 & H3 & _).
  split; [exact H1|]. split; [exact H2 | exact H3].
Defined.

(** X10: pinning, returning to auto-select and pinning again.  For a record
    without a deadline, [setPriority(p)], [setSourceAutoSelectEnabled(true)]
    and [setPriority(p)] again, at any three clock readings, end in the state
    of the pin the single call reaches: [p] visible, [p] pinned, auto-select
    off; in between auto-select is on. *)
Theorem setPriority_round_trip now1 now2 now3 p s r :
  _sourceAutoSelectEnabled s = true ->
  QMap.find p (_activeInputs s) = Some r -> timeoutTime_ms r <= 0 ->
  let s1 := snd (fst (setPriority now1 p s)) in
  let s2 := snd (fst (setSourceAutoSelectEnabled now2 true true s1)) in
  let s3 := snd (fst (setPriority now3 p s2)) in
  _currentPriority s1 = p
  /\ _sourceAutoSelectEnabled s2 = true
  /\ _currentPriority s3 = _currentPriority s1
  /\ _manualSelectedPriority s3 = _manualSelectedPriority s1
  /\ _sourceAutoSelectEnabled s3 = _sourceAutoSelectEnabled s1.
Proof.
  intros Ha Hf Ht s1 s2 s3.
  assert (Hnt : forall now, timed_out now r = false).
  { intros now. unfold timed_out.
    destruct (0 <? timeoutTime_ms r) eqn:H; [apply Z.ltb_lt in H; lia|easy]. }
  destruct (setPriority_from_auto_select now1 p s r Ha Hf (Hnt now1))
    as (_ & Hm1 & Ha1 & Hc1). fold s1 in Hm1, Ha1, Hc1.
  assert (Hf1 : QMap.find p (_activeInputs s1) = Some r).
  { unfold s1. rewrite (setPriority_accepted now1 p s Ha)
      by (apply contains_find; eauto).
    simpl. rewrite setCurrentTime_activeInputs. now apply sweep_table_keeps. }
  assert (Hs2 : s2 = fst (setCurrentTime now2
                            (set_sourceAutoSelectEnabled true s1))).
  { unfold s2, setSourceAutoSelectEnabled, setSourceAutoSelectEnabled_with.
    rewrite Ha1. simpl. now destruct (setCurrentTime now2 _). }
  assert (Ha2 : _sourceAutoSelectEnabled s2 = true)
    by (rewrite Hs2, setCurrentTime_sourceAutoSelectEnabled; reflexivity).
  assert (Hf2 : QMap.find p (_activeInputs s2) = Some r).
  { rewrite Hs2, setCurrentTime_activeInputs. simpl.
    now apply sweep_table_keeps. }
  destruct (setPriority_from_auto_select now3 p s2 r Ha2 Hf2 (Hnt now3))
    as (_ & Hm3 & Ha3 & Hc3). fold s3 in Hm3, Ha3, Hc3.
  repeat split; congruence.
Qed.

Lemma setPriority_round_trip_witness :
  _sourceAutoSelectEnabled example_state = true
  /\ _currentPriority
       (snd (fst (setPriority 1300 80
          (snd (fst (setSourceAutoSelectEnabled 1200 true true
             (snd (fst (setPriority 1100 80 example_state)))))))))
     = _currentPriority (snd (fst (setPriority 1100 80 example_state))).
Proof.
  split; [reflexivity|].
  exact (proj1 (proj2 (proj2
    (setPriority_round_trip 1100 1200 1300 80 example_state
       (mkInputInfo 80 (-1) [BLACK; BLACK; BLACK] empty_image COMP_COLOR
          "ui" 0 EmptyString)
       eq_refl eq_refl ltac:(simpl; lia))))).
Defined.

(** ** [clearInput] and [clearAll(true)] *)

Lemma find_filter_remove_other (f : Z * InputInfo -> bool) p q m :
  q <> p ->
  QMap.find q (filter f (QMap.remove p m)) = QMap.find q (filter f m).
Proof.
  intros Hne. induction m as [|[k v] m IH]; simpl; [easy|].
  destruct (p =? k) eqn:He.
  - apply Z.eqb_eq in He. subst k. rewrite IH.
    destruct (f (p, v)); simpl; [|easy].
    destruct (q =? p) eqn:Hq; [apply Z.eqb_eq in Hq; contradiction | easy].
  - simpl. destruct (f (k, v)); simpl; [|easy]. now rewrite IH.
Qed.

Lemma remove_absent p m : QMap.find p m = None -> QMap.remove p m = m.
Proof.
  induction m as [|[k v] m IH]; simpl; [easy|].
  destruct (p =? k); [discriminate|]. intros H. now rewrite IH.
Qed.

Lemma remove_insert_absent p v m :
  QMap.find p m = None -> QMap.remove p (QMap.insert p v m) = m.
Proof.
  induction m as [|[k v'] m IH]; simpl.
  - now rewrite Z.eqb_refl.
  - destruct (p =? k) eqn:He; [discriminate|]. intros H.
    destruct (p <? k); simpl.
    + rewrite Z.eqb_refl, He. now rewrite remove_absent.
    + rewrite He. now rewrite IH.
Qed.

Lemma sweep_table_none_timed_out now m :
  Forall (fun kv => timed_out now (snd kv) = false) m ->
  sweep_table now m = m.
Proof.
  unfold sweep_table. induction 1 as [|kv m Hkv _ IH]; simpl; [easy|].
  now rewrite Hkv, IH.
Qed.

Lemma clearInput_accepted now p s :
  p < LOWEST_PRIORITY -> QMap.contains p (_activeInputs s) = true ->
  clearInput now p s
  = (true,
     fst (setCurrentTime now
            (set_activeInputs (QMap.remove p (_activeInputs s)) s)),
     snd (setCurrentTime now
            (set_activeInputs (QMap.remove p (_activeInputs s)) s))
     ++ [priorityChanged p false; prioritiesChanged]).
Proof.
  intros Hp Hc. unfold clearInput. rewrite Hc.
  destruct (p <? LOWEST_PRIORITY) eqn:Hlt; [|apply Z.ltb_ge in Hlt; lia].
  simpl. now destruct (setCurrentTime now _).
Qed.

(** X11: [clearInput(p)] refuses, returning false, exactly when [p] is
    [LOWEST_PRIORITY] (or above) or is not in the table; a refused call
    leaves the state as it is and emits no signal.  In particular it never
    removes the record of [LOWEST_PRIORITY]. *)
Theorem clearInput_refused now p s :
  (fst (fst (clearInput now p s)) = false
   <-> LOWEST_PRIORITY <= p \/ QMap.contains p (_activeInputs s) = false)
  /\ (fst (fst (clearInput now p s)) = false ->
      clearInput now p s = (false, s, [])).
Proof.
  destruct (p <? LOWEST_PRIORITY) eqn:Hlt.
  - apply Z.ltb_lt in Hlt.
    destruct (QMap.contains p (_activeInputs s)) eqn:Hc.
    + rewrite (clearInput_accepted now p s Hlt Hc). simpl.
      split; [|discriminate]. split; [discriminate|].
      intros [H|H]; [lia | discriminate].
    + unfold clearInput. rewrite Hc, andb_false_r. split; [split|]; auto.
  - unfold clearInput. rewrite Hlt. simpl. apply Z.ltb_ge in Hlt.
    split; [split|]; auto.
Qed.

(** X12: a successful [clearInput(p)] ([p] below 255 and in the table)
    returns true and is a removal followed by a sweep: [p] is gone, every
    other priority is left as a sweep of the old table leaves it, and the
    signals are those of the sweep followed by [priorityChanged(p, false)]
    and [prioritiesChanged]. *)
Theorem clearInput_removes now p s :
  p < LOWEST_PRIORITY -> QMap.contains p (_activeInputs s) = true ->
  fst (fst (clearInput now p s)) = true
  /\ QMap.contains p (_activeInputs (snd (fst (clearInput now p s)))) = false
  /\ (forall q, q <> p ->
        QMap.find q (_activeInputs (snd (fst (clearInput now p s))))
        = QMap.find q (_activeInputs (fst (setCurrentTime now s))))
  /\ snd (clearInput now p s)
     = snd (setCurrentTime now
              (set_activeInputs (QMap.remove p (_activeInputs s)) s))
       ++ [priorityChanged p false; prioritiesChanged].
Proof.
  intros Hp Hc. rewrite (clearInput_accepted now p s Hp Hc). simpl.
  rewrite !setCurrentTime_activeInputs. simpl. repeat split.
  - apply contains_false_find. apply find_filter_none.
    apply find_remove_same.
  - intros q Hq. now apply find_filter_remove_other.
Qed.

Lemma clearInput_removes_witness :
  QMap.contains 80 (_activeInputs example_state) = true
  /\ fst (fst (clearInput 1050 80 example_state)) = true
  /\ QMap.contains 80
       (_activeInputs (snd (fst (clearInput 1050 80 example_state)))) = false.
Proof.
  split; [reflexivity|].
  pose proof (clearInput_removes 1050 80 example_state ltac:(reflexivity)
                eq_refl) as (H1 & H2 & _).
  split; [exact H1 | exact H2].
Defined.

(** X13: clearing the pinned priority ends manual mode.  With auto-select
    disabled and [p] pinned, a successful [clearInput(p)] leaves auto-select
    enabled and emits [autoSelectChanged(true)] before
    [priorityChanged(p, false)]. *)
Theorem clearInput_pinned now p s :
  _sourceAutoSelectEnabled s = false -> _manualSelectedPriority s = p ->
  p < LOWEST_PRIORITY -> QMap.contains p (_activeInputs s) = true ->
  _sourceAutoSelectEnabled (snd (fst (clearInput now p s))) = true
  /\ exists ev ev',
       snd (clearInput now p s)
       = ev ++ autoSelectChanged true
            :: ev' ++ [priorityChanged p false; prioritiesChanged].
Proof.
  intros Ha Hm Hp Hc. rewrite (clearInput_accepted now p s Hp Hc). simpl.
  assert (Hgone : QMap.contains p
            (sweep_table now (QMap.remove p (_activeInputs s))) = false).
  { apply contains_false_find. apply find_filter_none.
    apply find_remove_same. }
  rewrite setCurrentTime_sourceAutoSelectEnabled, setCurrentTime_events_exact.
  simpl. rewrite Ha, Hm, Hgone. simpl. split; [reflexivity|].
  rewrite <- !app_assoc. simpl. eexists. eexists. reflexivity.
Qed.

Lemma clearInput_pinned_witness :
  _sourceAutoSelectEnabled example_pinned = false
  /\ _manualSelectedPriority example_pinned = 80
  /\ _sourceAutoSelectEnabled (snd (fst (clearInput 1050 80 example_pinned)))
     = true.
Proof.
  split; [reflexivity|]. split; [reflexivity|].
  exact (proj1 (clearInput_pinned 1050 80 example_pinned eq_refl eq_refl
                  ltac:(reflexivity) eq_refl)).
Defined.

(** X14: registering and clearing.  [registerInput(p, ...)] of a priority
    below 255 that is not in the table, followed by [clearInput(p)], succeeds
    and leaves the table a sweep of the old table leaves; when no record has
    timed out, that is the old table itself. *)
Theorem registerInput_clearInput now p c o w g s :
  p < LOWEST_PRIORITY -> QMap.contains p (_activeInputs s) = false ->
  let s1 := fst (registerInput p c o w g s) in
  fst (fst (clearInput now p s1)) = true
  /\ _activeInputs (snd (fst (clearInput now p s1)))
     = sweep_table now (_activeInputs s)
  /\ (Forall (fun kv => timed_out now (snd kv) = false) (_activeInputs s) ->
      _activeInputs (snd (fst (clearInput now p s1))) = _activeInputs s).
Proof.
  intros Hp Hc s1.
  assert (Hc1 : QMap.contains p (_activeInputs s1) = true).
  { apply contains_find. eexists. unfold s1. simpl. apply find_insert_same. }
  rewrite (clearInput_accepted now p s1 Hp Hc1). simpl.
  rewrite setCurrentTime_activeInputs. simpl.
  rewrite remove_insert_absent by (now apply contains_false_find).
  repeat split. intros Hall. now apply sweep_table_none_timed_out.
Qed.

Lemma registerInput_clearInput_witness :
  QMap.contains 60 (_activeInputs example_state) = false
  /\ _activeInputs
       (snd (fst (clearInput 1050 60
                    (fst (registerInput 60 COMP_COLOR "ui" EmptyString 0
                            example_state)))))
     = _activeInputs example_state.
Proof.
  split; [reflexivity|].
  apply (proj2 (proj2 (registerInput_clearInput 1050 60 COMP_COLOR "ui"
                         EmptyString 0 example_state ltac:(reflexivity)
                         eq_refl))).
  repeat constructor.
Defined.

Lemma lowestPriorityInfo_setInput_with store now now' p t s :
  _lowestPriorityInfo (snd (fst (setInput_with store now now' p t s)))
  = _lowestPriorityInfo s.
Proof.
  unfold setInput_with.
  destruct (QMap.find p (_activeInputs s)) as [input|]; [|easy].
  match goal with |- context [if ?c then (true, true) else _] =>
    destruct c end; simpl.
  - match goal with |- context [setCurrentTime now' ?x] =>
      pose proof (setCurrentTime_lowestPriorityInfo now' x) as H;
      destruct (setCurrentTime now' x) end. exact H.
  - match goal with |- context [if ?c then (true, false) else _] =>
      destruct c end; simpl; [|easy].
    match goal with |- context [setCurrentTime now' ?x] =>
      pose proof (setCurrentTime_lowestPriorityInfo now' x) as H;
      destruct (setCurrentTime now' x) end. exact H.
Qed.

Lemma lowestPriorityInfo_clearInput now p s :
  _lowestPriorityInfo (snd (fst (clearInput now p s)))
  = _lowestPriorityInfo s.
Proof.
  unfold clearInput. destruct (_ && _); [|easy].
  match goal with |- context [setCurrentTime now ?x] =>
    pose proof (setCurrentTime_lowestPriorityInfo now x) as H;
    destruct (setCurrentTime now x) end. exact H.
Qed.

Lemma lowestPriorityInfo_clearAll_loop now keys : forall s,
  _lowestPriorityInfo (fst (clearAll_loop now keys s))
  = _lowestPriorityInfo s.
Proof.
  induction keys as [|k keys IH]; intros s; simpl; [easy|].
  destruct (is_color_or_effect _ && _).
  - pose proof (lowestPriorityInfo_clearInput now (to_quint8 k) s) as H.
    destruct (clearInput now (to_quint8 k) s) as [[b s'] ev]. simpl in H.
    specialize (IH s'). destruct (clearAll_loop now keys s'). simpl in *.
    congruence.
  - specialize (IH s). now destruct (clearAll_loop now keys s).
Qed.

Lemma lowestPriorityInfo_setSourceAutoSelectEnabled now e u s :
  _lowestPriorityInfo (snd (fst (setSourceAutoSelectEnabled now e u s)))
  = _lowestPriorityInfo s.
Proof.
  unfold setSourceAutoSelectEnabled, setSourceAutoSelectEnabled_with.
  destruct (negb (Bool.eqb _ e)); [|easy].
  destruct (negb e && _); [easy|]. destruct u; [|easy].
  match goal with |- context [setCurrentTime now ?x] =>
    pose proof (setCurrentTime_lowestPriorityInfo now x) as H;
    destruct (setCurrentTime now x) end. exact H.
Qed.

Lemma lowestPriorityInfo_step now op s :
  _lowestPriorityInfo (fst (step now op s)) = _lowestPriorityInfo s.
Proof.
  destruct op; simpl.
  - reflexivity.
  - unfold setInput.
    match goal with |- context [setInput_with ?f now ?n ?p ?t s] =>
      pose proof (lowestPriorityInfo_setInput_with f now n p t s) as H;
      destruct (setInput_with f now n p t s) as [[b s'] ev] end. exact H.
  - unfold setInputImage.
    match goal with |- context [setInput_with ?f now ?n ?p ?t s] =>
      pose proof (lowestPriorityInfo_setInput_with f now n p t s) as H;
      destruct (setInput_with f now n p t s) as [[b s'] ev] end. exact H.
  - unfold setInputInactive, setInputImage.
    match goal with |- context [setInput_with ?f now ?n ?p ?t s] =>
      pose proof (lowestPriorityInfo_setInput_with f now n p t s) as H;
      destruct (setInput_with f now n p t s) as [[b s'] ev] end. exact H.
  - match goal with |- context [clearInput now ?p s] =>
      pose proof (lowestPriorityInfo_clearInput now p s) as H;
      destruct (clearInput now p s) as [[b s'] ev] end. exact H.
  - unfold clearAll.
    match goal with |- context [if ?f then _ else _] => destruct f end;
      [reflexivity | apply lowestPriorityInfo_clearAll_loop].
  - unfold setPriority.
    destruct (QMap.contains _ (_activeInputs s)); [|reflexivity].
    match goal with |- context [setSourceAutoSelectEnabled now ?e ?u ?x] =>
      pose proof (lowestPriorityInfo_setSourceAutoSelectEnabled now e u x)
        as H;
      destruct (setSourceAutoSelectEnabled now e u x) as [[b s'] ev] end.
    exact H.
  - match goal with |- context [setSourceAutoSelectEnabled now ?e ?u s] =>
      pose proof (lowestPriorityInfo_setSourceAutoSelectEnabled now e u s)
        as H;
      destruct (setSourceAutoSelectEnabled now e u s) as [[b s'] ev] end.
    exact H.
  - unfold updateLedColorsLength.
    now destruct (updateLedColorsLength_loop _ _).
  - apply setCurrentTime_lowestPriorityInfo.
Qed.

Lemma lowestPriorityInfo_run calls : forall s,
  _lowestPriorityInfo (fst (run calls s)) = _lowestPriorityInfo s.
Proof.
  induction calls as [|[now op] calls IH]; intros s; simpl; [easy|].
  pose proof (lowestPriorityInfo_step now op s) as H.
  destruct (step now op s) as [s1 ev1]. specialize (IH s1).
  destruct (run calls s1). simpl in *. congruence.
Qed.

Lemma clearAll_force_run ledCount calls now :
  clearAll now true (fst (run calls (PriorityMuxer ledCount)))
  = (mkMuxer LOWEST_PRIORITY
       (_manualSelectedPriority (fst (run calls (PriorityMuxer ledCount))))
       (_activeInputs (PriorityMuxer ledCount))
       (_lowestPriorityInfo (PriorityMuxer ledCount))
       (_sourceAutoSelectEnabled (fst (run calls (PriorityMuxer ledCount)))),
     []).
Proof.
  unfold clearAll, set_activeInputs, set_currentPriority. simpl.
  now rewrite lowestPriorityInfo_run.
Qed.

(** X15: [clearAll(true)] after any run of calls brings back the table of
    the freshly constructed muxer, a single black record under 255 with as
    many LEDs as the constructor was given, also when
    [updateLedColorsLength] has resized the records since, and sets
    [_currentPriority] to 255.  It emits no signal for the records it drops,
    and it leaves the pin and the auto-select flag alone, so manual mode can
    stay engaged with the pin gone. *)
Theorem clearAll_force_restores ledCount calls now :
  let s := fst (run calls (PriorityMuxer ledCount)) in
  clearAll now true s
  = (mkMuxer LOWEST_PRIORITY (_manualSelectedPriority s)
       (_activeInputs (PriorityMuxer ledCount))
       (_lowestPriorityInfo (PriorityMuxer ledCount))
       (_sourceAutoSelectEnabled s),
     []).
Proof.
  intros s. unfold clearAll, set_activeInputs, set_currentPriority.
  cbn [_currentPriority _manualSelectedPriority _activeInputs
       _lowestPriorityInfo _sourceAutoSelectEnabled QMap.insert].
  unfold s. rewrite lowestPriorityInfo_run. reflexivity.
Qed.

(** X16: the sweep after [clearAll(true)].  If manual mode was engaged with a
    pin other than 255 when [clearAll(true)] was called, the next sweep
    finds the pin gone: it enables auto-select, emits
    [autoSelectChanged(true)] and nothing else, and leaves 255 visible. *)
Theorem clearAll_force_then_sweep ledCount calls now now' :
  let s := fst (run calls (PriorityMuxer ledCount)) in
  _sourceAutoSelectEnabled s = false ->
  _manualSelectedPriority s <> LOWEST_PRIORITY ->
  setCurrentTime now' (fst (clearAll now true s))
  = (mkMuxer LOWEST_PRIORITY (_manualSelectedPriority s)
       (_activeInputs (PriorityMuxer ledCount))
       (_lowestPriorityInfo (PriorityMuxer ledCount)) true,
     [autoSelectChanged true]).
Proof.
  intros s Ha Hm.
  pose proof (clearAll_force_run ledCount calls now) as H.
  fold s in H. rewrite H.
  unfold setCurrentTime, setSourceAutoSelectEnabled_with. simpl.
  rewrite Ha. simpl. unfold QMap.contains. simpl.
  destruct (_manualSelectedPriority s =? LOWEST_PRIORITY) eqn:He;
    [apply Z.eqb_eq in He; contradiction | reflexivity].
Qed.

Lemma clearAll_force_then_sweep_witness :
  _sourceAutoSelectEnabled
    (fst (run (example_calls ++ [(1000, OpSetPriority 80)])
            (PriorityMuxer 3))) = false
  /\ _manualSelectedPriority
       (fst (run (example_calls ++ [(1000, OpSetPriority 80)])
               (PriorityMuxer 3))) <> LOWEST_PRIORITY
  /\ snd (setCurrentTime 1250
            (fst (clearAll 1200 true
                    (fst (run (example_calls ++ [(1000, OpSetPriority 80)])
                            (PriorityMuxer 3))))))
     = [autoSelectChanged true].
Proof.
  assert (Ha : _sourceAutoSelectEnabled
                 (fst (run (example_calls ++ [(1000, OpSetPriority 80)])
                         (PriorityMuxer 3))) = false)
    by (vm_compute; reflexivity).
  assert (Hm : _manualSelectedPriority
                 (fst (run (example_calls ++ [(1000, OpSetPriority 80)])
                         (PriorityMuxer 3))) <> LOWEST_PRIORITY)
    by (vm_compute; discriminate).
  split; [exact Ha|]. split; [exact Hm|].
  pose proof (clearAll_force_then_sweep 3
                (example_calls ++ [(1000, OpSetPriority 80)]) 1200 1250
                Ha Hm) as H.
  rewrite H. reflexivity.
Defined.

(** X17: the record of [LOWEST_PRIORITY] stays.  After any run of calls from
    construction in which no [setInput] or [setInputImage] hands priority 255
    a positive timeout, the table holds the key 255, with a record that has
    no deadline. *)
Theorem lowest_priority_stays ledCount calls :
  forallb (fun c => negb (gives_lowest_deadline (snd c))) calls = true ->
  exists r,
    QMap.find LOWEST_PRIORITY
      (_activeInputs (fst (run calls (PriorityMuxer ledCount)))) = Some r
    /\ timeoutTime_ms r <= 0.
Proof.
  intros H.
  exact (proj1 (lowest_ok_run calls _ H (lowest_ok_PriorityMuxer ledCount))).
Qed.

Lemma lowest_priority_stays_witness :
  forallb (fun c => negb (gives_lowest_deadline (snd c)))
    (example_calls ++ [(1200, OpClearAll false); (1250, OpSetCurrentTime)])
  = true
  /\ QMap.contains LOWEST_PRIORITY
       (_activeInputs
          (fst (run (example_calls
                     ++ [(1200, OpClearAll false); (1250, OpSetCurrentTime)])
                  (PriorityMuxer 3)))) = true.
Proof.
  split; [reflexivity|].
  destruct (lowest_priority_stays 3
              (example_calls
               ++ [(1200, OpClearAll false); (1250, OpSetCurrentTime)])
              eq_refl) as (r & Hf & _).
  unfold QMap.contains. rewrite Hf. reflexivity.
Defined.

(** ** [setInput], [setInputImage] and [setInputInactive] at work *)

Lemma setInput_with_no_edge store now now' p t s r :
  QMap.find p (_activeInputs s) = Some r ->
  (timeoutTime_ms r =? -100) = (final_timeout now t =? -100) ->
  setInput_with store now now' p t s
  = (true,
     set_activeInputs
       (QMap.insert p (store r (final_timeout now t)) (_activeInputs s)) s,
     []).
Proof.
  intros Hf He. unfold setInput_with. rewrite Hf.
  fold (final_timeout now t). rewrite He.
  now destruct (final_timeout now t =? -100).
Qed.

(** X18: an update that does not cross the inactive/active edge is silent.
    When the stored timeout and the new one are both -100 or both different
    from -100, [setInput] and [setInputImage] only rewrite the record: they
    emit no signal and run no sweep, so [_currentPriority], the auto-select
    flag and every other record, timed out or not, stay as they are, and the
    clock is read for the deadline only: the reading [now'] a sweep would
    take plays no part. *)
Theorem setInput_without_edge now now' p t colors img s r :
  QMap.find p (_activeInputs s) = Some r ->
  (timeoutTime_ms r =? -100) = (final_timeout now t =? -100) ->
  setInput now now' p colors t s
  = (true,
     set_activeInputs
       (QMap.insert p (set_timeout_ledColors (final_timeout now t) colors r)
                    (_activeInputs s)) s,
     [])
  /\ setInputImage now now' p img t s
     = (true,
        set_activeInputs
          (QMap.insert p (set_timeout_image (final_timeout now t) img r)
                       (_activeInputs s)) s,
        []).
Proof.
  intros Hf He. unfold setInput, setInputImage.
  now rewrite !(setInput_with_no_edge _ now now' p t s r Hf He).
Qed.

Lemma setInput_without_edge_witness :
  snd (setInput 1050 1051 40 [BLACK] 10 example_state) = []
  /\ _currentPriority
       (snd (fst (setInput 1050 1051 40 [BLACK] 10 example_state)))
     = _currentPriority example_state.
Proof.
  pose proof (proj1 (setInput_without_edge 1050 1051 40 10 [BLACK]
                empty_image
                example_state
                (mkInputInfo 40 1100 [] (mkImage 1 1 [BLACK]) COMP_GRABBER
                   "grabber" 0 EmptyString)
                eq_refl eq_refl)) as H.
  rewrite H. split; reflexivity.
Defined.

(** X19: a positive timeout is a lifetime counted from the call.  After
    [setInput(p, colors, t)] with [t > 0] whose deadline is taken at clock
    reading [now] (not negative) and whose own sweep, if it runs one, reads
    [now1], a later sweep at reading [now'] keeps priority [p] exactly when
    [now' < now + t]; the clock is only asked not to run backwards between
    the two sweeps, or to stand before the deadline in the call's own. *)
Theorem setInput_lifetime now now1 now' p t colors s :
  reachable s ->
  QMap.contains p (_activeInputs s) = true ->
  0 < t -> 0 <= now ->
  now1 <= now' \/ now1 < now + t ->
  QMap.contains p
    (_activeInputs
       (fst (setCurrentTime now'
               (snd (fst (setInput now now1 p colors t s))))))
  = (now' <? now + t).
Proof.
  intros Hr Hc Ht Hnow Hclock. apply reachable_wf in Hr.
  apply contains_find in Hc. destruct Hc as [r Hf].
  apply wf_elim in Hr. destruct Hr as [Hwf _].
  destruct (wf_from_find _ _ _ _ Hwf Hf) as [Hrange Hprio].
  set (r1 := set_timeout_ledColors (final_timeout now t) colors r).
  assert (Hwf1 : wf_from 0 (QMap.insert p r1 (_activeInputs s)) = true)
    by (apply wf_from_insert; auto).
  assert (Ht1 : timed_out now' r1 = negb (now' <? now + t)).
  { unfold timed_out, r1, final_timeout. simpl.
    destruct (0 <? t) eqn:H0; [|apply Z.ltb_ge in H0; lia].
    destruct (0 <? now + t) eqn:H1; [|apply Z.ltb_ge in H1; lia]. simpl.
    destruct (now + t <=? now') eqn:H2.
    - apply Z.leb_le in H2. symmetry. apply negb_true_iff, Z.ltb_ge. lia.
    - apply Z.leb_gt in H2. symmetry. apply negb_false_iff, Z.ltb_lt. lia. }
  unfold setInput.
  rewrite (setInput_with_eq _ now now1 p t s r Hf). fold r1.
  rewrite setCurrentTime_activeInputs. unfold QMap.contains.
  destruct (crosses_edge _ _); cbn [fst snd].
  - rewrite setCurrentTime_activeInputs. cbn [_activeInputs set_activeInputs].
    assert (Hwf2 : wf_from 0 (sweep_table now1
                                (QMap.insert p r1 (_activeInputs s))) = true)
      by (apply wf_from_filter; exact Hwf1).
    rewrite (sweep_table_find 0 now' _ p Hwf2).
    rewrite (sweep_table_find 0 now1 _ p Hwf1), find_insert_same.
    destruct (timed_out now1 r1) eqn:Ht0.
    + unfold timed_out, r1, final_timeout in Ht0. simpl in Ht0.
      destruct (0 <? t) eqn:H0; [|apply Z.ltb_ge in H0; lia].
      apply andb_true_iff in Ht0. destruct Ht0 as [_ Ht0].
      apply Z.leb_le in Ht0. symmetry. apply Z.ltb_ge. lia.
    + rewrite Ht1. now destruct (now' <? now + t).
  - cbn [_activeInputs set_activeInputs].
    rewrite (sweep_table_find 0 now' _ p Hwf1), find_insert_same, Ht1.
    now destruct (now' <? now + t).
Qed.

Lemma setInput_lifetime_witness :
  reachable example_state
  /\ QMap.contains 80
       (_activeInputs
          (fst (setCurrentTime 1299
                  (snd (fst (setInput 1000 1001 80 [BLACK] 300
                               example_state))))))
     = true
  /\ QMap.contains 80
       (_activeInputs
          (fst (setCurrentTime 1300
                  (snd (fst (setInput 1000 1001 80 [BLACK] 300
                               example_state))))))
     = false.
Proof.
  assert (Hr : reachable example_state)
    by (apply reachable_run; [apply reach_init | reflexivity]).
  split; [exact Hr|]. split.
  - exact (setInput_lifetime 1000 1001 1299 80 300 [BLACK] example_state Hr
             eq_refl ltac:(lia) ltac:(lia) ltac:(lia)).
  - exact (setInput_lifetime 1000 1001 1300 80 300 [BLACK] example_state Hr
             eq_refl ltac:(lia) ltac:(lia) ltac:(lia)).
Defined.

Lemma active_keys_In x m :
  In x (active_keys m) -> exists v, In (x, v) m /\ is_active v = true.
Proof.
  unfold active_keys. intros Hin. apply in_map_iff in Hin.
  destruct Hin as ([k v] & <- & Hin). apply filter_In in Hin.
  exists v. simpl in *. tauto.
Qed.

(** X20: deactivating hands visibility over.  In auto-select mode,
    [setInputInactive(p)] on an active record at a priority strictly between
    0 and 255 returns true, stores the timeout -100 and the empty image
    (the colours stay), emits [activeStateChanged(p, false)] and
    [prioritiesChanged] first, and when it returns [p] is not the visible
    priority. *)
Theorem setInputInactive_hands_over now p s r :
  reachable s ->
  _sourceAutoSelectEnabled s = true ->
  QMap.find p (_activeInputs s) = Some r -> is_active r = true ->
  0 < p < LOWEST_PRIORITY ->
  fst (fst (setInputInactive now p s)) = true
  /\ QMap.find p (_activeInputs (snd (fst (setInputInactive now p s))))
     = Some (set_timeout_image (-100) empty_image r)
  /\ _currentPriority (snd (fst (setInputInactive now p s))) <> p
  /\ exists ev,
       snd (setInputInactive now p s)
       = activeStateChanged p false :: prioritiesChanged :: ev.
Proof.
  intros Hr Ha Hf Hact Hp. apply reachable_wf in Hr.
  destruct (setInput_with_find
    (fun input x => set_timeout_image x empty_image input)
    now now p (-100) s r (fun _ _ => eq_refl) Hf
    (erased_in_call_false now now (-100) _ ltac:(lia))) as [Hret Hf1].
  unfold final_timeout in Hf1. simpl in Hf1.
  fold (setInputImage now now p empty_image (-100) s) in Hret, Hf1.
  fold (setInputInactive now p s) in Hret, Hf1.
  split; [exact Hret|]. split; [exact Hf1|].
  assert (Hold : (timeoutTime_ms r =? -100) = false).
  { unfold is_active in Hact. apply Z.ltb_lt in Hact. apply Z.eqb_neq. lia. }
  pose proof (wf_elim _ Hr) as [Hwf _].
  destruct (wf_from_find _ _ _ _ Hwf Hf) as [Hrange Hprio].
  set (m1 := QMap.insert p (set_timeout_image (-100) empty_image r)
               (_activeInputs s)).
  assert (Hwf1 : wf_from 0 m1 = true)
    by (apply wf_from_insert; auto).
  assert (Heq : setInputInactive now p s
    = (true, fst (setCurrentTime now (set_activeInputs m1 s)),
       activeStateChanged p false :: prioritiesChanged
       :: snd (setCurrentTime now (set_activeInputs m1 s)))).
  { unfold setInputInactive, setInputImage, setInput_with. rewrite Hf, Hold.
    simpl. fold m1. now destruct (setCurrentTime now _). }
  rewrite Heq. simpl. split; [|eauto].
  rewrite setCurrentTime_currentPriority. simpl. rewrite Ha. simpl.
  rewrite (sweep_loop_newPriority now 0 _ _ Hwf1).
  assert (Hnp : (if QMap.contains 0 m1 then 0 else LOWEST_PRIORITY) <> p)
    by (destruct (QMap.contains 0 m1); unfold LOWEST_PRIORITY in *; lia).
  destruct (smallest (active_keys (sweep_table now m1))) as [x|] eqn:Hs;
    [|exact Hnp].
  apply smallest_spec in Hs. destruct Hs as [Hx _].
  apply active_keys_In in Hx. destruct Hx as (v & Hin & Hv).
  unfold sweep_table in Hin. apply filter_In in Hin. destruct Hin as [Hin _].
  destruct (wf_from_In _ _ _ _ Hwf1 Hin) as (_ & _ & Hfx).
  assert (Hxp : x <> p).
  { intros ->. unfold m1 in Hfx. rewrite find_insert_same in Hfx.
    injection Hfx as <-. discriminate Hv. }
  destruct (Z.min_spec (if QMap.contains 0 m1 then 0 else LOWEST_PRIORITY) x)
    as [[_ ->]|[_ ->]]; assumption.
Qed.

Lemma setInputInactive_hands_over_witness :
  reachable example_state
  /\ _currentPriority example_state = 40
  /\ _currentPriority (snd (fst (setInputInactive 1050 40 example_state)))
     <> 40.
Proof.
  assert (Hr : reachable example_state)
    by (apply reachable_run; [apply reach_init | reflexivity]).
  split; [exact Hr|]. split; [reflexivity|].
  exact (proj1 (proj2 (proj2
    (setInputInactive_hands_over 1050 40 example_state
       (mkInputInfo 40 1100 [] (mkImage 1 1 [BLACK]) COMP_GRABBER
          "grabber" 0 EmptyString)
       Hr eq_refl eq_refl eq_refl ltac:(unfold LOWEST_PRIORITY; lia))))).
Defined.

(** ** [updateLedColorsLength] with a count of zero *)

Lemma updateLedColorsLength_loop_empty n m :
  Forall (fun kv => ledColors (snd kv) = []) m ->
  updateLedColorsLength_loop n m = Some m.
Proof.
  induction 1 as [|[k v] m Hv _ IH]; simpl; [easy|].
  simpl in Hv. now rewrite Hv, IH.
Qed.

Lemma updateLedColorsLength_loop_zero m :
  exists m', updateLedColorsLength_loop 0 m = Some m'
             /\ QMap.keys m' = QMap.keys m
             /\ Forall (fun kv => ledColors (snd kv) = []) m'.
Proof.
  induction m as [|[k v] m (m' & IH & Hk & Hall)]; simpl.
  - exists []. auto.
  - rewrite IH. destruct (ledColors v) as [|c0 l] eqn:Hl.
    + exists ((k, v) :: m'). simpl. rewrite Hk. auto.
    + unfold resize. simpl.
      exists ((k, set_ledColors [] v) :: m'). simpl. rewrite Hk. auto.
Qed.

(** X21: a LED count of zero is final.  [updateLedColorsLength(0)] keeps the
    priorities and empties the colour buffer of every record; since the
    function skips empty buffers, no later [updateLedColorsLength], whatever
    its count, changes the state again: the buffers stay empty. *)
Theorem updateLedColorsLength_zero_is_final s :
  exists s0,
    updateLedColorsLength 0 s = Some s0
    /\ getPriorities s0 = getPriorities s
    /\ (forall p r, QMap.find p (_activeInputs s0) = Some r ->
          ledColors r = [])
    /\ forall n, updateLedColorsLength n s0 = Some s0.
Proof.
  unfold updateLedColorsLength, getPriorities.
  destruct (updateLedColorsLength_loop_zero (_activeInputs s))
    as (m' & -> & Hk & Hall).
  eexists. split; [reflexivity|]. simpl. split; [exact Hk|]. split.
  - intros p r Hf. apply find_In in Hf.
    rewrite Forall_forall in Hall. exact (Hall _ Hf).
  - intros n. now rewrite (updateLedColorsLength_loop_empty n m' Hall).
Qed.

(** ** The rate-limited trigger *)

Lemma timeTrigger_blockTimer tm :
  isActive (_blockTimer (fst (timeTrigger tm))) = true.
Proof.
  unfold timeTrigger. now destruct (isActive (_blockTimer tm)) eqn:H.
Qed.

(** X22: the rate limit.  Whatever trigger requests and timer timeouts
    arrive, in whatever order, [timeRunner] is emitted at most once more
    than [_blockTimer] times out, and not even that once when the block
    timer is running at the start: between two emissions the block timer
    has run out. *)
Theorem timeRunner_rate_limit evs : forall tm,
  (List.length (snd (timer_run evs tm))
   <= (if isActive (_blockTimer tm) then 0 else 1)
      + List.length (filter is_BlockTimeout evs))%nat.
Proof.
  induction evs as [|e evs IH]; intros tm; simpl.
  - destruct (isActive (_blockTimer tm)); lia.
  - destruct (timer_step e tm) as [tm1 sig1] eqn:Hstep.
    specialize (IH tm1). destruct (timer_run evs tm1) as [tm2 sig2].
    simpl in *. rewrite length_app.
    destruct e; simpl in Hstep.
    + unfold timeTrigger in Hstep.
      destruct (isActive (_blockTimer tm)) eqn:Hb;
        injection Hstep as <- <-; simpl in *; [rewrite Hb in IH|]; lia.
    + destruct (isActive (_timer tm)).
      * unfold timeTrigger in Hstep. simpl in Hstep.
        destruct (isActive (_blockTimer tm)) eqn:Hb;
          injection Hstep as <- <-; simpl in *; [rewrite Hb in IH|]; lia.
      * injection Hstep as <- <-. simpl. lia.
    + destruct (isActive (_blockTimer tm)) eqn:Hb.
      * injection Hstep as <- <-. simpl in *.
        destruct (isActive (if singleShot (_blockTimer tm) then _ else _));
          lia.
      * injection Hstep as <- <-. simpl. rewrite Hb in IH. lia.
Qed.

Lemma timer_run_app evs1 evs2 tm :
  timer_run (evs1 ++ evs2) tm
  = (fst (timer_run evs2 (fst (timer_run evs1 tm))),
     snd (timer_run evs1 tm) ++ snd (timer_run evs2 (fst (timer_run evs1 tm)))).
Proof.
  revert tm. induction evs1 as [|e evs1 IH]; intros tm; simpl.
  - now destruct (timer_run evs2 tm).
  - destruct (timer_step e tm) as [tm1 sig1]. rewrite IH.
    destruct (timer_run evs1 tm1) as [tm2 sig2]. simpl.
    now rewrite app_assoc.
Qed.

Lemma timer_run_cons e evs tm :
  timer_run (e :: evs) tm
  = (fst (timer_run evs (fst (timer_step e tm))),
     snd (timer_step e tm) ++ snd (timer_run evs (fst (timer_step e tm)))).
Proof.
  cbn [timer_run]. destruct (timer_step e tm) as [tm1 sig1].
  cbn [fst snd]. destruct (timer_run evs tm1). reflexivity.
Qed.

Lemma timer_run_blocked evs : forall tm,
  single_shot tm = true ->
  isActive (_blockTimer tm) = true -> isActive (_timer tm) = true ->
  forallb (fun e => negb (is_BlockTimeout e)) evs = true ->
  snd (timer_run evs tm) = []
  /\ single_shot (fst (timer_run evs tm)) = true
  /\ isActive (_blockTimer (fst (timer_run evs tm))) = true
  /\ isActive (_timer (fst (timer_run evs tm))) = true.
Proof.
  induction evs as [|e evs IH]; intros tm Hss Hb Ht He; simpl; [auto|].
  simpl in He. apply andb_true_iff in He. destruct He as [He1 He2].
  unfold single_shot in Hss. apply andb_true_iff in Hss.
  destruct Hss as [Hs1 Hs2].
  assert (Hstep : snd (timer_step e tm) = []
                  /\ single_shot (fst (timer_step e tm)) = true
                  /\ isActive (_blockTimer (fst (timer_step e tm))) = true
                  /\ isActive (_timer (fst (timer_step e tm))) = true).
  { destruct e; [| |discriminate]; simpl; unfold timeTrigger, single_shot;
      rewrite ?Ht, ?Hs1; simpl; rewrite Hb; simpl; rewrite ?Hs1, ?Hs2; auto. }
  destruct Hstep as (H1 & H2 & H3 & H4).
  destruct (timer_step e tm) as [tm1 sig1]. simpl in *.
  destruct (IH tm1 H2 H3 H4 He2) as (I1 & I2 & I3 & I4).
  destruct (timer_run evs tm1) as [tm2 sig2]. simpl in *. subst. auto.
Qed.

(** X23: a request made during the block window is not lost.  With the block
    timer running, a trigger request emits nothing but arms [_timer]; through
    any further requests and [_timer] timeouts it stays armed and nothing is
    emitted; once [_blockTimer] has timed out, the next timeout of [_timer]
    emits [timeRunner] and starts the block timer again. *)
Theorem deferred_request_is_served evs tm :
  single_shot tm = true ->
  isActive (_blockTimer tm) = true ->
  forallb (fun e => negb (is_BlockTimeout e)) evs = true ->
  let tm1 := fst (timer_run (TriggerRequest :: evs ++ [BlockTimeout]) tm) in
  snd (timer_run (TriggerRequest :: evs ++ [BlockTimeout]) tm) = []
  /\ isActive (_timer tm1) = true
  /\ snd (timer_step TimerTimeout tm1) = [timeRunner]
  /\ isActive (_blockTimer (fst (timer_step TimerTimeout tm1))) = true.
Proof.
  intros Hss Hb He. cbv zeta.
  pose proof Hss as Hss'. unfold single_shot in Hss'.
  apply andb_true_iff in Hss'. destruct Hss' as [Hs1 Hs2].
  set (tm0 := mkTimers (start 500 (_timer tm)) (_blockTimer tm)).
  assert (H0 : timer_step TriggerRequest tm = (tm0, []))
    by (simpl; unfold timeTrigger; now rewrite Hb).
  assert (Hss0 : single_shot tm0 = true)
    by (unfold single_shot; simpl; now rewrite Hs1, Hs2).
  destruct (timer_run_blocked evs tm0 Hss0 Hb eq_refl He)
    as (I1 & I2 & I3 & I4).
  unfold single_shot in I2. apply andb_true_iff in I2.
  destruct I2 as [J1 J2].
  set (tm2 := fst (timer_run evs tm0)) in *.
  assert (H3 : timer_step BlockTimeout tm2
               = (mkTimers (_timer tm2) (stop (_blockTimer tm2)), []))
    by (simpl; now rewrite I3, J2).
  assert (E : timer_run (TriggerRequest :: evs ++ [BlockTimeout]) tm
              = (mkTimers (_timer tm2) (stop (_blockTimer tm2)), [])).
  { rewrite timer_run_cons, H0. cbn [fst snd app].
    rewrite timer_run_app. fold tm2. rewrite I1.
    rewrite (timer_run_cons BlockTimeout [] tm2), H3. reflexivity. }
  rewrite E. cbn [fst snd]. split; [reflexivity|]. split; [exact I4|].
  simpl. rewrite I4, J1. unfold timeTrigger. simpl. auto.
Qed.

Lemma deferred_request_is_served_witness :
  single_shot (fst (timeTrigger PriorityMuxer_timers)) = true
  /\ isActive (_blockTimer (fst (timeTrigger PriorityMuxer_timers))) = true
  /\ snd (timer_run
            (TriggerRequest :: [TriggerRequest; TimerTimeout]
             ++ [BlockTimeout])
            (fst (timeTrigger PriorityMuxer_timers)))
     = []
  /\ snd (timer_step TimerTimeout
            (fst (timer_run
                    (TriggerRequest :: [TriggerRequest; TimerTimeout]
                     ++ [BlockTimeout])
                    (fst (timeTrigger PriorityMuxer_timers)))))
     = [timeRunner].
Proof.
  split; [reflexivity|]. split; [reflexivity|].
  pose proof (deferred_request_is_served [TriggerRequest; TimerTimeout]
                (fst (timeTrigger PriorityMuxer_timers))
                eq_refl eq_refl eq_refl) as (H1 & _ & H3 & _).
  split; [exact H1 | exact H3].
Defined.

(** ** [clearAll(false)] with nothing to clear, and activation *)

Lemma clearAll_loop_nothing now keys : forall s,
  any_soft_cleared (_activeInputs s) = false ->
  Forall (fun k => QMap.contains k (_activeInputs s) = true) keys ->
  clearAll_loop now keys s = (s, []).
Proof.
  induction keys as [|k keys IH]; intros s Hany Hk; [reflexivity|].
  inversion Hk as [|? ? Hc Hk']; subst. cbn [clearAll_loop].
  unfold getInputInfo. apply contains_find in Hc. destruct Hc as [r Hf].
  rewrite Hf. fold (soft_cleared k r).
  assert (Hs : soft_cleared k r = false).
  { destruct (soft_cleared k r) eqn:Hs; [|reflexivity].
    unfold any_soft_cleared in Hany.
    assert (Ht : existsb (fun kv => soft_cleared (fst kv) (snd kv))
                   (_activeInputs s) = true).
    { apply existsb_exists. exists (k, r). split; [now apply find_In|easy]. }
    congruence. }
  rewrite Hs. now rewrite (IH s Hany Hk').
Qed.

(** X24: a soft clear-all with nothing to clear does nothing at all.  When no
    record is a colour or an effect below priority 254, [clearAll(false)]
    returns the state unchanged and emits no signal; as it calls no
    [clearInput], it runs no sweep either, so timed-out records stay in the
    table. *)
Theorem clearAll_soft_nothing_to_clear now s :
  any_soft_cleared (_activeInputs s) = false ->
  clearAll now false s = (s, []).
Proof.
  intros Hany. unfold clearAll. apply clearAll_loop_nothing; [easy|].
  apply Forall_forall. intros k Hin. now apply contains_In_keys.
Qed.

Lemma clearAll_soft_nothing_to_clear_witness :
  any_soft_cleared (_activeInputs example_grabber) = false
  /\ QMap.keys (_activeInputs (fst (clearAll 1200 false example_grabber)))
     = [40; 255].
Proof.
  split; [reflexivity|].
  rewrite (clearAll_soft_nothing_to_clear 1200 example_grabber eq_refl).
  reflexivity.
Defined.

Lemma setInput_with_activation store now now' p t s r :
  (forall i x, timeoutTime_ms (store i x) = x) ->
  (forall i x, priority (store i x) = priority i) ->
  wf s = true ->
  _sourceAutoSelectEnabled s = true ->
  QMap.find p (_activeInputs s) = Some r ->
  timeoutTime_ms r = -100 -> -100 < final_timeout now t ->
  erased_in_call now now' t (timeoutTime_ms r) = false ->
  fst (fst (setInput_with store now now' p t s)) = true
  /\ _currentPriority (snd (fst (setInput_with store now now' p t s))) <= p
  /\ exists ev,
       snd (setInput_with store now now' p t s)
       = activeStateChanged p true :: prioritiesChanged :: ev.
Proof.
  intros Hst Hpr Hwf Ha Hf Hold Hnew Hkeep.
  pose proof (wf_elim _ Hwf) as [Hwf0 _].
  destruct (wf_from_find _ _ _ _ Hwf0 Hf) as [Hrange Hprio].
  set (m1 := QMap.insert p (store r (final_timeout now t)) (_activeInputs s)).
  assert (Hwf1 : wf_from 0 m1 = true)
    by (apply wf_from_insert; auto; now rewrite Hpr).
  assert (Hedge : (final_timeout now t =? -100) = false)
    by (apply Z.eqb_neq; lia).
  assert (Heq : setInput_with store now now' p t s
    = (true, fst (setCurrentTime now' (set_activeInputs m1 s)),
       activeStateChanged p true :: prioritiesChanged
       :: snd (setCurrentTime now' (set_activeInputs m1 s)))).
  { rewrite (setInput_with_eq store now now' p t s r Hf).
    unfold crosses_edge. rewrite Hold, Hedge. reflexivity. }
  rewrite Heq. simpl. split; [reflexivity|]. split; [|eauto].
  rewrite setCurrentTime_currentPriority. simpl. rewrite Ha. simpl.
  rewrite (sweep_loop_newPriority now' 0 _ _ Hwf1).
  assert (Hin : In p (active_keys (sweep_table now' m1))).
  { apply present_active_In. unfold present_active, sweep_table.
    rewrite (find_filter_keep _ p (store r (final_timeout now t))).
    - unfold is_active. rewrite Hst. now apply Z.ltb_lt.
    - apply find_insert_same.
    - simpl. unfold timed_out. rewrite Hst.
      unfold erased_in_call, crosses_edge in Hkeep.
      rewrite Hold, Hedge in Hkeep. simpl in Hkeep. now rewrite Hkeep. }
  destruct (smallest (active_keys (sweep_table now' m1))) as [x|] eqn:Hs.
  - apply smallest_spec in Hs. destruct Hs as [_ Hmin].
    specialize (Hmin _ Hin). lia.
  - destruct (active_keys (sweep_table now' m1));
      [destruct Hin | discriminate].
Qed.

(** X25: activation makes a source visible unless a smaller priority already
    is.  In auto-select mode, [setInput] or [setInputImage] on a registered,
    inactive priority [p] with a timeout that makes it active, and whose
    deadline, if it has one, has not passed at the reading [now'] of the
    sweep the call runs, returns true, emits [activeStateChanged(p, true)]
    and [prioritiesChanged] first, and leaves a visible priority that is [p]
    or numerically smaller. *)
Theorem setInput_activation now now' p t colors img s r :
  reachable s ->
  _sourceAutoSelectEnabled s = true ->
  QMap.find p (_activeInputs s) = Some r ->
  timeoutTime_ms r = -100 -> -100 < final_timeout now t ->
  erased_in_call now now' t (timeoutTime_ms r) = false ->
  (fst (fst (setInput now now' p colors t s)) = true
   /\ _currentPriority (snd (fst (setInput now now' p colors t s))) <= p
   /\ exists ev,
        snd (setInput now now' p colors t s)
        = activeStateChanged p true :: prioritiesChanged :: ev)
  /\ (fst (fst (setInputImage now now' p img t s)) = true
      /\ _currentPriority (snd (fst (setInputImage now now' p img t s))) <= p
      /\ exists ev,
           snd (setInputImage now now' p img t s)
           = activeStateChanged p true :: prioritiesChanged :: ev).
Proof.
  intros Hr Ha Hf Hold Hnew Hkeep. apply reachable_wf in Hr. split.
  - exact (setInput_with_activation
             (fun input x => set_timeout_ledColors x colors input)
             now now' p t s r (fun _ _ => eq_refl) (fun _ _ => eq_refl)
             Hr Ha Hf Hold Hnew Hkeep).
  - exact (setInput_with_activation
             (fun input x => set_timeout_image x img input)
             now now' p t s r (fun _ _ => eq_refl) (fun _ _ => eq_refl)
             Hr Ha Hf Hold Hnew Hkeep).
Qed.

Lemma setInput_activation_witness :
  reachable example_state
  /\ _currentPriority example_state = 40
  /\ erased_in_call 1050 1060 30 (-100) = false
  /\ _currentPriority
       (snd (fst (setInput 1050 1060 20 [BLACK] 30 example_state))) <= 20.
Proof.
  assert (Hr : reachable example_state)
    by (apply reachable_run; [apply reach_init | reflexivity]).
  split; [exact Hr|]. split; [reflexivity|]. split; [reflexivity|].
  exact (proj1 (proj2 (proj1
    (setInput_activation 1050 1060 20 30 [BLACK] empty_image example_state
       (mkInputInfo 20 (-100) [] empty_image COMP_EFFECT "fx" 0 "rainbow")
       Hr eq_refl eq_refl eq_refl ltac:(reflexivity) eq_refl)))).
Defined.
